(** * STLL paragraph layout (src/src/layoutParagraph.cpp): a shallow embedding

    Integers of the C++ code ([int], [int32_t], [size_t]) are [Z] or [nat];
    positions into vectors are [nat].  Values the code computes in [float] or
    [double] are modelled by the extended rationals [xq] below (exact
    arithmetic with infinities and NaN, no rounding).

    External collaborators of the engine (fribidi, liblinebreak /
    libwordbreak, the hyphenation dictionaries, harfbuzz, font metrics,
    inline objects, shapes) are parameters: the model takes them as
    functions, and the theorems hold for every choice of them unless a
    hypothesis says otherwise. *)

From Stdlib Require Import String Ascii ZArith QArith Qabs Bool Lia Sorted List Permutation.
Import ListNotations.
Open Scope Z_scope.

(** ** Generic helpers over vectors *)

(** [v[i] = x]; a write out of range is undefined in C++ and left out. *)
Fixpoint set_nth {A} (l : list A) (i : nat) (x : A) : list A :=
  match l, i with
  | [], _ => []
  | _ :: t, O => x :: t
  | h :: t, S i' => h :: set_nth t i' x
  end.

(** [std::vector::resize n] with value-initialised new elements [d]. *)
Definition resize {A} (n : nat) (d : A) (l : list A) : list A :=
  firstn n l ++ repeat d (n - length l).

(** Writes [vals] into [l] starting at position [p] (a C buffer written by
    a library routine through [ptr + p]). *)
Fixpoint write_at {A} (l : list A) (p : nat) (vals : list A) : list A :=
  match vals with
  | [] => l
  | v :: vs => write_at (set_nth l p v) (S p) vs
  end.

(** [std::basic_string::substr pos n] (for [pos <= size]). *)
Definition substr {A} (s : list A) (pos n : nat) : list A :=
  firstn n (skipn pos s).

(** [s.find_first_of(c, pos)]: [None] stands for [npos]. *)
Fixpoint find_from (c : Z) (s : list Z) (pos : nat) : option nat :=
  match s with
  | [] => None
  | x :: t =>
      match pos with
      | O => if Z.eqb x c then Some O
             else option_map S (find_from c t O)
      | S p => option_map S (find_from c t p)
      end
  end.

(** ** Data model *)

(** Line break classes of liblinebreak; a zero-initialised byte is
    [LINEBREAK_MUSTBREAK] (value 0). *)
Inductive linebreak_t :=
  LINEBREAK_MUSTBREAK | LINEBREAK_ALLOWBREAK | LINEBREAK_NOBREAK | LINEBREAK_INSIDEACHAR.

Definition lb_eqb (a b : linebreak_t) : bool :=
  match a, b with
  | LINEBREAK_MUSTBREAK, LINEBREAK_MUSTBREAK
  | LINEBREAK_ALLOWBREAK, LINEBREAK_ALLOWBREAK
  | LINEBREAK_NOBREAK, LINEBREAK_NOBREAK
  | LINEBREAK_INSIDEACHAR, LINEBREAK_INSIDEACHAR => true
  | _, _ => false
  end.

(** Word break classes of libwordbreak; zero is [WORDBREAK_BREAK]. *)
Inductive wordbreak_t := WORDBREAK_BREAK | WORDBREAK_NOBREAK | WORDBREAK_INSIDEACHAR.

Definition wb_is_break (w : wordbreak_t) : bool :=
  match w with WORDBREAK_BREAK => true | _ => false end.

(** A font face, compared by identity ([ff_id]) as the code compares
    [shared_ptr]s. *)
Record FontFace := {
  ff_id : nat;
  ff_ascender : Z;
  ff_descender : Z;
  ff_underlinePosition : Z;
  ff_underlineThickness : Z;
  ff_containsGlyph : Z -> bool
}.

Definition font_eqb (a b : option FontFace) : bool :=
  match a, b with
  | None, None => true
  | Some f, Some g => Nat.eqb (ff_id f) (ff_id g)
  | _, _ => false
  end.

Record Color := { cr : Z; cg : Z; cb : Z; ca : Z }.

Inductive cmd_kind := CMD_GLYPH | CMD_RECT | CMD_IMAGE.

(** [CommandData_c]: one drawing command. *)
Record CommandData := {
  command : cmd_kind;
  cmd_x : Z; cmd_y : Z; cmd_w : Z; cmd_h : Z;
  cmd_font : option FontFace; cmd_glyph : Z;
  cmd_c : Color; cmd_blurr : Z
}.

Definition glyph_cmd (f : option FontFace) (gi x y : Z) (c : Color) (bl : Z) : CommandData :=
  {| command := CMD_GLYPH; cmd_x := x; cmd_y := y; cmd_w := 0; cmd_h := 0;
     cmd_font := f; cmd_glyph := gi; cmd_c := c; cmd_blurr := bl |}.

Definition rect_cmd (x y w h : Z) (c : Color) (bl : Z) : CommandData :=
  {| command := CMD_RECT; cmd_x := x; cmd_y := y; cmd_w := w; cmd_h := h;
     cmd_font := None; cmd_glyph := 0; cmd_c := c; cmd_blurr := bl |}.

Definition shift_cmd (dx dy : Z) (c : CommandData) : CommandData :=
  {| command := command c; cmd_x := cmd_x c + dx; cmd_y := cmd_y c + dy;
     cmd_w := cmd_w c; cmd_h := cmd_h c; cmd_font := cmd_font c;
     cmd_glyph := cmd_glyph c; cmd_c := cmd_c c; cmd_blurr := cmd_blurr c |}.

Record Shadow := { sh_dx : Z; sh_dy : Z; sh_c : Color; sh_blurr : Z }.

(** An inline object ([TextLayout_c] held by the attribute). *)
Record Inlay := {
  inlay_height : Z;
  inlay_right : Z;
  inlay_data : list CommandData
}.

(** The font set of an attribute: [font.get(c)] picks a face for a
    codepoint (possibly none, e.g. for inline objects). *)
Record FontSet := {
  fs_get : Z -> option FontFace;
  fs_underlinePosition : Z;    (** [font.getUnderlinePosition()] *)
  fs_underlineThickness : Z    (** [font.getUnderlineThickness()] *)
}.

(** [CodepointAttributes_c]. *)
Record CodepointAttributes := {
  a_font : FontSet;
  a_c : Color;
  a_lang : string;
  a_baseline_shift : Z;
  a_inlay : option Inlay;
  a_link : nat;
  a_shadows : list Shadow;
  a_underline : bool   (** [flags & FL_UNDERLINE] *)
}.

(** [AttributeIndex_c]: attributes per original position and
    [hasAttribute]. *)
Record AttributeIndex := {
  ai_get : nat -> CodepointAttributes;
  ai_has : nat -> bool
}.

(** ** The view ([LayoutDataView]) *)

Definition isBidiCharacter (c : Z) : bool :=
  Z.eqb c 0x202A || Z.eqb c 0x202B || Z.eqb c 0x202C.

Record LayoutDataView := {
  txt32 : list Z;
  idx : list nat;
  attr : AttributeIndex;
  embeddingLevels : list Z;
  linebreaks : list linebreak_t;
  hyphens : list bool
}.

(** The copy loop of the constructor: [for (i = ...; i < t.size(); i++)],
    appending the retained codepoints and their original indices. *)
Fixpoint view_copy (t : list Z) (i : nat) : list Z * list nat :=
  match t with
  | [] => ([], [])
  | c :: t' =>
      let '(txt, ix) := view_copy t' (S i) in
      if negb (isBidiCharacter c) then (c :: txt, i :: ix) else (txt, ix)
  end.

Definition mkView (t : list Z) (a : AttributeIndex) (e : list Z) : LayoutDataView :=
  let '(txt, ix) := view_copy t 0 in
  {| txt32 := txt; idx := ix; attr := a; embeddingLevels := e;
     linebreaks := repeat LINEBREAK_MUSTBREAK (length ix); hyphens := [] |}.

Definition vsize (v : LayoutDataView) : nat := length (txt32 v).
Definition vtxt (v : LayoutDataView) (i : nat) : Z := nth i (txt32 v) 0.
Definition att (v : LayoutDataView) (i : nat) : CodepointAttributes :=
  ai_get (attr v) (nth i (idx v) 0%nat).
Definition hasatt (v : LayoutDataView) (i : nat) : bool :=
  ai_has (attr v) (nth i (idx v) 0%nat).
Definition emb (v : LayoutDataView) (i : nat) : Z :=
  nth (nth i (idx v) 0%nat) (embeddingLevels v) 0.
Definition lnb (v : LayoutDataView) (i : nat) : linebreak_t :=
  nth i (linebreaks v) LINEBREAK_MUSTBREAK.

Definition with_linebreaks (v : LayoutDataView) (lb : list linebreak_t) : LayoutDataView :=
  {| txt32 := txt32 v; idx := idx v; attr := attr v; embeddingLevels := embeddingLevels v;
     linebreaks := lb; hyphens := hyphens v |}.

Definition with_hyphens (v : LayoutDataView) (h : list bool) : LayoutDataView :=
  {| txt32 := txt32 v; idx := idx v; attr := attr v; embeddingLevels := embeddingLevels v;
     linebreaks := linebreaks v; hyphens := h |}.

(** [sethyp(i)]: [hyphens.resize(idx.size()); hyphens[i] = true]. *)
Definition sethyp (v : LayoutDataView) (i : nat) : LayoutDataView :=
  with_hyphens v (set_nth (resize (length (idx v)) false (hyphens v)) i true).

(** [hyp(i)]: [i < hyphens.size() && hyphens[i]]. *)
Definition hyp (v : LayoutDataView) (i : nat) : bool :=
  Nat.ltb i (length (hyphens v)) && nth i (hyphens v) false.

(** ** External collaborators *)

(** Output of the hyphenator for one word: per position [l] the pair
    ([hyphens[l].hyphens], [hyphens[l].rep->length()]). *)
Definition HyphenDict := list Z -> list (Z * nat).

(** One glyph of harfbuzz' output: [glyph_info] and [glyph_pos]. *)
Record GlyphOut := {
  g_codepoint : Z; g_cluster : nat;
  x_offset : Z; y_offset : Z; x_advance : Z; y_advance : Z
}.

Record Collaborators := {
  (** [fribidi_get_par_embedding_levels] after [fribidi_get_bidi_types];
      [None] is the failure return value 0 *)
  fribidi_levels : list Z -> bool -> option (list Z);
  (** [set_linebreaks_utf32(text, len, lang, out)]: the [len] values written *)
  set_linebreaks_utf32 : list Z -> string -> list linebreak_t;
  (** [set_wordbreaks_utf32(text, len, lang, out)]: the [len] values written *)
  set_wordbreaks_utf32 : list Z -> string -> list wordbreak_t;
  (** [internal::getHyphenDict(lang)]; [None] is a null pointer *)
  getHyphenDict : string -> option HyphenDict;
  (** [hb_shape] on a buffer of (codepoint, cluster) pairs, with direction
      RTL?, the script tag set (if any) and the language set (if any) *)
  hb_shape : FontFace -> list (Z * nat) -> bool -> option string -> option string -> list GlyphOut
}.

Section Analysis.
Variable env : Collaborators.

(** The text [c_str() + start] read for [len] characters: one past the
    end yields the terminating NUL. *)
Definition cslice (v : LayoutDataView) (start len : nat) : list Z :=
  substr (txt32 v ++ [0]) start len.

(** *** [getLinebreaks] *)

(** [while (runpos < length && att(runstart).lang == att(runpos).lang) runpos++]
    ([k] bounds the iterations, [k >= length - runpos] at the call). *)
Fixpoint lang_run_end (v : LayoutDataView) (runstart : nat) (k runpos : nat) : nat :=
  match k with
  | O => runpos
  | S k' =>
      if Nat.ltb runpos (vsize v) && String.eqb (a_lang (att v runstart)) (a_lang (att v runpos))
      then lang_run_end v runstart k' (S runpos) else runpos
  end.

(** The outer [while (runstart < length)]; [runstart] grows by at least
    one per iteration, so [k = length] iterations suffice. *)
Fixpoint linebreak_loop (v : LayoutDataView) (k runstart : nat) : LayoutDataView :=
  match k with
  | O => v
  | S k' =>
      if Nat.ltb runstart (vsize v) then
        let length := vsize v in
        let runpos := lang_run_end v runstart length (S runstart) in
        let len := (runpos - runstart + (if Nat.ltb runpos length then 1 else 0))%nat in
        let out := firstn len (set_linebreaks_utf32 env (cslice v runstart len)
                                                   (a_lang (att v runstart))) in
        let v' := with_linebreaks v (write_at (linebreaks v) runstart out) in
        linebreak_loop v' k' runpos
      else v
  end.

Definition getLinebreaks (v : LayoutDataView) : LayoutDataView :=
  linebreak_loop v (vsize v) 0.

(** *** [getHyphens] *)

(** A dictionary lookup or a call of the hyphenator, as issued by
    [getHyphens]: the effects on the collaborators that the loop performs. *)
Inductive hyph_event :=
  | DictLookup (sectionstart sectionend : nat) (lang : string)
  | Hyphenate (sectionstart wordstart j : nat) (word : list Z).

(** [hyphens[l]] with an out-of-range read taken as "no hyphen". *)
Definition hyph_at (hs : list (Z * nat)) (l : nat) : Z * nat := nth l hs (0, 0%nat).

(** [for (l = 0; l < j-wordstart+1; l++) if (...) view.sethyp(sectionstart+wordstart+l+1)] *)
Definition mark_hyphens (v : LayoutDataView) (hs : list (Z * nat)) (sectionstart wordstart j : nat)
  : LayoutDataView :=
  fold_left (fun v l =>
               let '(cnt, replen) := hyph_at hs l in
               if negb (Z.eqb (Z.rem cnt 2) 0) && Nat.eqb replen 0
               then sethyp v (sectionstart + wordstart + l + 1) else v)
            (seq 0 (j - wordstart + 1)) v.

(** [U+00AD not found in txt from wordstart on, or found at >= j] *)
Definition no_shy_before (v : LayoutDataView) (wordstart j : nat) : bool :=
  match find_from 0xAD (txt32 v) wordstart with
  | None => true
  | Some p => Nat.leb j p
  end.

(** [for (size_t j = 1; j < breaks.size(); j++)]: [k] counts the remaining
    iterations. *)
Fixpoint word_loop (dict : HyphenDict) (breaks : list wordbreak_t) (sectionstart : nat)
    (k j wordstart : nat) (v : LayoutDataView) (tr : list hyph_event)
  : LayoutDataView * list hyph_event :=
  match k with
  | O => (v, tr)
  | S k' =>
      if wb_is_break (nth (j - 1) breaks WORDBREAK_BREAK) then
        let '(v', tr') :=
          if no_shy_before v wordstart j then
            let word := substr (txt32 v) wordstart (j - wordstart) in
            let hs := dict word in
            (mark_hyphens v hs sectionstart wordstart j,
             tr ++ [Hyphenate sectionstart wordstart j word])
          else (v, tr) in
        word_loop dict breaks sectionstart k' (S j) j v' tr'
      else word_loop dict breaks sectionstart k' (S j) wordstart v tr
  end.

(** [while (i < view.size() && view.hasatt(i) && view.att(i).lang == curLang) i++] *)
Fixpoint section_end (v : LayoutDataView) (curLang : string) (k i : nat) : nat :=
  match k with
  | O => i
  | S k' =>
      if Nat.ltb i (vsize v) && hasatt v i && String.eqb (a_lang (att v i)) curLang
      then section_end v curLang k' (S i) else i
  end.

(** The outer [while (sectionstart < view.size())]; [sectionstart] grows by
    at least one per iteration. *)
Fixpoint section_loop (k sectionstart : nat) (v : LayoutDataView) (tr : list hyph_event)
  : LayoutDataView * list hyph_event :=
  match k with
  | O => (v, tr)
  | S k' =>
      if Nat.ltb sectionstart (vsize v) then
        if hasatt v sectionstart && negb (String.eqb (a_lang (att v sectionstart)) "") then
          let curLang := a_lang (att v 0) in
          let i := section_end v curLang (vsize v) (S sectionstart) in
          let tr1 := tr ++ [DictLookup sectionstart i curLang] in
          match getHyphenDict env curLang with
          | Some dict =>
              let n := (i - sectionstart + 1)%nat in
              let written := firstn n (set_wordbreaks_utf32 env (cslice v sectionstart n) curLang) in
              let breaks := write_at (repeat WORDBREAK_BREAK n) 0 written ++ [WORDBREAK_BREAK] in
              let '(v', tr2) := word_loop dict breaks sectionstart (length breaks - 1) 1 0 v tr1 in
              section_loop k' i v' tr2
          | None => section_loop k' i v tr1
          end
        else section_loop k' (S sectionstart) v tr
      else (v, tr)
  end.

Definition getHyphens_trace (v : LayoutDataView) : LayoutDataView * list hyph_event :=
  section_loop (vsize v) 0 v [].

Definition getHyphens (v : LayoutDataView) : LayoutDataView := fst (getHyphens_trace v).

End Analysis.

(** ** Runs *)

Record Rect := { r_x : Z; r_y : Z; r_w : Z; r_h : Z }.

(** [TextLayout_c::LinkInformation_c] *)
Record LinkInformation := { url : string; areas : list Rect }.

(** [runInfo] *)
Record runInfo := {
  run : list (nat * CommandData);
  dx : Z;
  dy : Z;
  embeddingLevel : Z;
  linebreak : linebreak_t;
  font : option FontFace;
  space : bool;
  shy : bool;
  ascender : Z;
  descender : Z;
  links : list LinkInformation
}.

Inductive Alignment := ALG_LEFT | ALG_RIGHT | ALG_CENTER | ALG_JUSTIFY_LEFT | ALG_JUSTIFY_RIGHT.

(** [LayoutProperties_c] *)
Record LayoutProperties := {
  ltr : bool;
  align : Alignment;
  indent : Z;
  hyphenate : bool;
  optimizeLinebreaks : bool;
  underlineFont : option FontSet;
  prop_links : list string
}.

(** Errors leaving [layoutParagraph] as [LayoutException_c].  [LoopBound]
    is no error of the code: it marks a loop of the model that ran out of
    its iteration bound (see [breakLines_terminates]). *)
Inductive layout_error := BidiFailure | NonLinearScript | LoopBound.

Definition res (A : Type) : Type := (layout_error + A)%type.

Definition bind {A B} (m : res A) (k : A -> res B) : res B :=
  match m with inl e => inl e | inr x => k x end.

Notation "'let*' x ':=' m 'in' k" := (bind m (fun x => k))
  (at level 200, x pattern, m at level 100, k at level 200).

Definition zero_shadow : Shadow := {| sh_dx := 0; sh_dy := 0; sh_c := Build_Color 0 0 0 0; sh_blurr := 0 |}.

(** [addUnderline(run, gx, gw, prop, a)]: the commands it pushes. *)
Definition addUnderline (gx gw : Z) (prop : LayoutProperties) (a : CodepointAttributes)
  : list (nat * CommandData) :=
  if a_underline a then
    let uf := match underlineFont prop with Some f => f | None => a_font a end in
    let gy := - (fs_underlinePosition uf + Z.quot (fs_underlineThickness uf) 2) in
    let gh := Z.max 64 (fs_underlineThickness uf) in
    let n := length (a_shadows a) in
    map (fun j => let sd := nth j (a_shadows a) zero_shadow in
                  ((n - j)%nat, rect_cmd (gx + sh_dx sd) (gy + sh_dy sd) gw gh (sh_c sd) (sh_blurr sd)))
        (seq 0 n)
    ++ [(0%nat, rect_cmd gx gy gw gh (a_c a) 0)]
  else [].

(** Glyph output of a buffer that is never shaped (no harfbuzz font):
    the buffer contents with zero positions. *)
Definition unshaped (buf : list (Z * nat)) : list GlyphOut :=
  map (fun '(cp, cl) => {| g_codepoint := cp; g_cluster := cl;
                           x_offset := 0; y_offset := 0; x_advance := 0; y_advance := 0 |}) buf.

(** Script and language set on the buffer from the attribute's language
    tag: script from the 4 characters after the first '-', language from
    the first [i-1] characters (the whole tag when [i-1] wraps to -1). *)
Definition buffer_script_lang (language : string) : option string * option string :=
  if String.eqb language "" then (None, None)
  else match String.index 0 "-" language with
       | Some i => (Some (String.substring (S i) 4 language),
                    Some (match i with O => language | S i' => String.substring 0 i' language end))
       | None => (None, Some language)
       end.

(** State of the first pass over the glyphs: absolute x offsets, link tracking. *)
Record pass1 := {
  p_dx : Z; p_curLink : nat; p_linkRect : Rect; p_linkStart : Z;
  p_links : list LinkInformation; p_xoff : list Z
}.

Definition link_url (prop : LayoutProperties) (l : nat) : string :=
  nth (l - 1)%nat (prop_links prop) EmptyString.

Definition first_pass_step (v : LayoutDataView) (prop : LayoutProperties) (asc desc : Z)
    (st : pass1) (g : GlyphOut) : pass1 :=
  let a := att v (g_cluster g) in
  match a_inlay a with
  | Some _ => {| p_dx := p_dx st; p_curLink := p_curLink st; p_linkRect := p_linkRect st;
                 p_linkStart := p_linkStart st; p_links := p_links st;
                 p_xoff := p_xoff st ++ [x_offset g] |}
  | None =>
      let curLink := p_curLink st in
      let linkStart :=
        if (Nat.eqb curLink 0 && negb (Nat.eqb (a_link a) 0)) || negb (Nat.eqb curLink (a_link a))
        then p_dx st else p_linkStart st in
      let xo := x_offset g + p_dx st in
      let ndx := p_dx st + x_advance g in
      let '(curLink', rect', links') :=
        if Nat.eqb (a_link a) 0 then (curLink, p_linkRect st, p_links st)
        else
          let '(cl, lks) :=
            if negb (Nat.eqb curLink 0) && negb (Nat.eqb curLink (a_link a))
            then (0%nat, p_links st ++ [{| url := link_url prop curLink; areas := [p_linkRect st] |}])
            else (curLink, p_links st) in
          if Nat.eqb cl 0
          then (a_link a, {| r_x := linkStart; r_y := - asc; r_w := ndx - linkStart; r_h := asc - desc |}, lks)
          else (cl, {| r_x := r_x (p_linkRect st); r_y := r_y (p_linkRect st);
                       r_w := ndx - linkStart; r_h := r_h (p_linkRect st) |}, lks) in
      {| p_dx := ndx; p_curLink := curLink'; p_linkRect := rect'; p_linkStart := linkStart;
         p_links := links'; p_xoff := p_xoff st ++ [xo] |}
  end.

Definition first_pass (v : LayoutDataView) (prop : LayoutProperties) (asc desc : Z)
    (glyphs : list GlyphOut) : pass1 :=
  fold_left (first_pass_step v prop asc desc) glyphs
    {| p_dx := 0; p_curLink := 0; p_linkRect := Build_Rect 0 0 0 0; p_linkStart := 0;
       p_links := []; p_xoff := [] |}.

(** The commands of one glyph cluster (not an inline object): the
    shadows (their number taken from the run's first attribute, their data
    from the cluster's), the glyph, its underline. *)
Definition glyph_cmds (v : LayoutDataView) (prop : LayoutProperties) (runstart : nat)
    (font : option FontFace) (rdy : Z) (a : CodepointAttributes) (g : GlyphOut) (gx : Z)
  : list (nat * CommandData) :=
  let ar := att v runstart in
  let gi := g_codepoint g in
  let gy := rdy - y_offset g - a_baseline_shift ar in
  let n := length (a_shadows ar) in
  map (fun j => let sd := nth j (a_shadows a) zero_shadow in
                ((n - j)%nat, glyph_cmd font gi (gx + sh_dx sd) (gy + sh_dy sd) (sh_c sd) (sh_blurr sd)))
      (seq 0 n)
  ++ [(0%nat, glyph_cmd font gi gx gy (a_c a) 0)]
  ++ addUnderline gx (x_advance g + 64) prop a.

(** The commands of an inline-object cluster: its data shifted to the
    current advance and one unit below the ascender, then its underline. *)
Definition inlay_cmds (prop : LayoutProperties) (asc rdx : Z) (i : Inlay) (a : CodepointAttributes)
  : list (nat * CommandData) :=
  map (fun c => (0%nat, shift_cmd rdx (- (asc - 1)) c)) (inlay_data i)
  ++ addUnderline rdx (inlay_right i) prop a.

(** The output loop over the glyphs (in reverse for odd embedding levels),
    with the glyph's absolute x offset from the first pass. *)
Fixpoint second_pass (v : LayoutDataView) (prop : LayoutProperties) (runstart : nat)
    (font : option FontFace) (asc rdy : Z) (gs : list (GlyphOut * Z))
    (cmds : list (nat * CommandData)) (rdx : Z) : res (list (nat * CommandData) * Z) :=
  match gs with
  | [] => inr (cmds, rdx)
  | (g, gx) :: gs' =>
      let a := att v (g_cluster g) in
      match a_inlay a with
      | Some i =>
          second_pass v prop runstart font asc rdy gs'
            (cmds ++ inlay_cmds prop asc rdx i a) (rdx + inlay_right i)
      | None =>
          let cmds' := cmds ++ glyph_cmds v prop runstart font rdy a g gx in
          if negb (Z.eqb (y_advance g) 0) then inl NonLinearScript
          else second_pass v prop runstart font asc rdy gs' cmds' rdx
      end
  end.

Definition is_space_char (c : Z) : bool := Z.eqb c 0x20 || Z.eqb c 0x0A.

(** The buffer of [createRun] and what the shaper makes of it: the run's
    codepoints, or a single hyphen for a soft-hyphen run; the harfbuzz
    font exists exactly when [font] does. *)
Definition run_glyphs (env : Collaborators) (v : LayoutDataView) (spos runstart : nat)
    (font : option FontFace) : list GlyphOut :=
  let is_shy := Z.eqb (vtxt v runstart) 0xAD in
  let '(script, language) := buffer_script_lang (a_lang (att v runstart)) in
  let buf :=
    if negb is_shy then map (fun k => (vtxt v k, k)) (seq runstart (spos - runstart))
    else if (match font with Some f => ff_containsGlyph f 0x2010 | None => false end)
         then [(0x2010, 0%nat)] else [(0x2D, 0%nat)] in
  let rtl := negb (Z.even (emb v runstart)) in
  match font with
  | Some f => hb_shape env f buf rtl script language
  | None => unshaped buf
  end.

(** [createRun(view, spos, runstart, prop, font, hb_ft_font)].  Where the
    code dereferences a null [font] (undefined) the model reads 0 / "no glyph". *)
Definition createRun (env : Collaborators) (v : LayoutDataView) (spos runstart : nat)
    (prop : LayoutProperties) (font : option FontFace) : res runInfo :=
  let is_space := is_space_char (vtxt v (spos - 1)) in
  let is_shy := Z.eqb (vtxt v runstart) 0xAD in
  let level := emb v runstart in
  let rtl := negb (Z.even level) in
  let glyphs := run_glyphs env v spos runstart font in
  let ar := att v runstart in
  let '(asc, desc) :=
    match a_inlay ar with
    | Some i => let asc := inlay_height i + a_baseline_shift ar in (asc, inlay_height i - asc)
    | None => match font with
              | Some f => (ff_ascender f + a_baseline_shift ar, ff_descender f + a_baseline_shift ar)
              | None => (a_baseline_shift ar, a_baseline_shift ar)
              end
    end in
  let p1 := first_pass v prop asc desc glyphs in
  let gs := combine glyphs (p_xoff p1) in
  let gs_out := if rtl then rev gs else gs in
  let* out := second_pass v prop runstart font asc 0 gs_out [] (p_dx p1) in
  let '(cmds, rdx) := out in
  let lks := if Nat.eqb (p_curLink p1) 0 then p_links p1
             else p_links p1 ++ [{| url := link_url prop (p_curLink p1); areas := [p_linkRect p1] |}] in
  inr {| run := cmds; dx := rdx; dy := 0; embeddingLevel := level;
         linebreak := lnb v (spos - 1); font := font; space := is_space; shy := is_shy;
         ascender := asc; descender := desc; links := lks |}.

(** ** [createTextRuns] *)

Definition lb_continues (l : linebreak_t) : bool :=
  lb_eqb l LINEBREAK_NOBREAK || lb_eqb l LINEBREAK_INSIDEACHAR.

Definition has_inlay (a : CodepointAttributes) : bool :=
  match a_inlay a with Some _ => true | None => false end.

(** The condition of the run-extension loop at [spos]. *)
Definition run_continues (v : LayoutDataView) (runstart spos : nat) (font : option FontFace) : bool :=
  Nat.ltb spos (vsize v)
  && Z.eqb (emb v runstart) (emb v spos)
  && String.eqb (a_lang (att v runstart)) (a_lang (att v spos))
  && font_eqb font (fs_get (a_font (att v spos)) (vtxt v spos))
  && Z.eqb (a_baseline_shift (att v runstart)) (a_baseline_shift (att v spos))
  && negb (has_inlay (att v spos))
  && negb (has_inlay (att v (spos - 1)))
  && lb_continues (lnb v (spos - 1))
  && negb (Z.eqb (vtxt v spos) 0x20)
  && negb (Z.eqb (vtxt v (spos - 1)) 0x20)
  && negb (Z.eqb (vtxt v spos) 0x0A)
  && negb (Z.eqb (vtxt v (spos - 1)) 0x0A)
  && negb (Z.eqb (vtxt v spos) 0xAD)
  && negb (hyp v spos).

Fixpoint run_end (v : LayoutDataView) (runstart : nat) (font : option FontFace) (k spos : nat) : nat :=
  match k with
  | O => spos
  | S k' => if run_continues v runstart spos font then run_end v runstart font k' (S spos) else spos
  end.

(** The one-codepoint view [U"­"] built for an automatic hyphen. *)
Definition shyView (v : LayoutDataView) (runstart : nat) : LayoutDataView :=
  let a := att v runstart in
  let va := mkView [0xAD] {| ai_get := fun _ => a; ai_has := fun _ => true |} [emb v runstart] in
  with_linebreaks va (set_nth (linebreaks va) 0 LINEBREAK_ALLOWBREAK).

Fixpoint runs_loop (env : Collaborators) (v : LayoutDataView) (prop : LayoutProperties)
    (k runstart : nat) (acc : list runInfo) : res (list runInfo) :=
  match k with
  | O => inr acc
  | S k' =>
      if Nat.ltb runstart (vsize v) then
        let font := fs_get (a_font (att v runstart)) (vtxt v runstart) in
        let spos := run_end v runstart font (vsize v) (S runstart) in
        let* r := createRun env v spos runstart prop font in
        let* extra :=
          if hyp v spos then
            let* r2 := createRun env (shyView v runstart) 1 0 prop font in inr [r2]
          else inr [] in
        runs_loop env v prop k' spos (acc ++ [r] ++ extra)
      else inr acc
  end.

(** [runstart] grows by at least one per iteration: [size] iterations suffice. *)
Definition createTextRuns (env : Collaborators) (v : LayoutDataView) (prop : LayoutProperties)
  : res (list runInfo) :=
  runs_loop env v prop (vsize v) 0 [].

(** ** Line assembly ([addLine]) *)

(** [TextLayout_c] *)
Record TextLayout := {
  commands : list CommandData;
  tl_links : list LinkInformation;
  firstBaseline : Z;
  height : Z;
  tl_left : Z;
  tl_right : Z
}.

Definition emptyLayout : TextLayout :=
  {| commands := []; tl_links := []; firstBaseline := 0; height := 0; tl_left := 0; tl_right := 0 |}.

Definition set_links (l : TextLayout) (ls : list LinkInformation) : TextLayout :=
  {| commands := commands l; tl_links := ls; firstBaseline := firstBaseline l;
     height := height l; tl_left := tl_left l; tl_right := tl_right l |}.

Definition add_commands (l : TextLayout) (cs : list CommandData) : TextLayout :=
  {| commands := commands l ++ cs; tl_links := tl_links l; firstBaseline := firstBaseline l;
     height := height l; tl_left := tl_left l; tl_right := tl_right l |}.

Definition setFirstBaseline (l : TextLayout) (b : Z) : TextLayout :=
  {| commands := commands l; tl_links := tl_links l; firstBaseline := b;
     height := height l; tl_left := tl_left l; tl_right := tl_right l |}.

Definition finish_layout (l : TextLayout) (h lft rgt : Z) : TextLayout :=
  {| commands := commands l; tl_links := tl_links l; firstBaseline := firstBaseline l;
     height := h; tl_left := lft; tl_right := rgt |}.

(** The [Shape_c] queried by the breakers. *)
Record Shape := {
  getLeft : Z -> Z -> Z;
  getRight : Z -> Z -> Z;
  getLeft2 : Z -> Z -> Z;
  getRight2 : Z -> Z -> Z
}.

Definition shift_rect (dx dy : Z) (r : Rect) : Rect :=
  {| r_x := r_x r + dx; r_y := r_y r + dy; r_w := r_w r; r_h := r_h r |}.

(** [find_if] on the url, creating the entry when missing, then
    [push_back] of the shifted rectangles. *)
Fixpoint add_areas (ls : list LinkInformation) (u : string) (rs : list Rect) : list LinkInformation :=
  match ls with
  | [] => [{| url := u; areas := rs |}]
  | l :: t => if String.eqb (url l) u then {| url := url l; areas := areas l ++ rs |} :: t
              else l :: add_areas t u rs
  end.

Definition mergeLinks (txt : TextLayout) (lks : list LinkInformation) (ddx ddy : Z) : TextLayout :=
  set_links txt (fold_left (fun acc l => add_areas acc (url l) (map (shift_rect ddx ddy) (areas l)))
                           lks (tl_links txt)).

Definition LF_FIRST : Z := 1.
Definition LF_LAST : Z := 2.
Definition LF_SMALL_SPACE : Z := 4.

Definition has_flag (flags f : Z) : bool := negb (Z.eqb (Z.land flags f) 0).

Definition default_run : runInfo :=
  {| run := []; dx := 0; dy := 0; embeddingLevel := 0; linebreak := LINEBREAK_NOBREAK;
     font := None; space := false; shy := false; ascender := 0; descender := 0; links := [] |}.

Definition run_at (runs : list runInfo) (i : nat) : runInfo := nth i runs default_run.

(** *** Visual order *)

Definition reverse_range (o : list nat) (j k : nat) : list nat :=
  firstn j o ++ rev (firstn (k - j) (skipn j o)) ++ skipn k o.

Fixpoint seg_end (lv : nat -> Z) (o : list nat) (i : Z) (n k : nat) : nat :=
  match n with
  | O => k
  | S n' => if Nat.ltb k (length o) && Z.ltb i (lv (nth k o 0%nat))
            then seg_end lv o i n' (S k) else k
  end.

(** [for (size_t j = 0; j < runorder.size(); j++)], with [j = k] after a
    reversed region; [j] grows each iteration, [n] bounds them. *)
Fixpoint reorder_pass (lv : nat -> Z) (i : Z) (n j : nat) (o : list nat) : list nat :=
  match n with
  | O => o
  | S n' =>
      if Nat.ltb j (length o) then
        if Z.ltb i (lv (nth j o 0%nat)) then
          let k := seg_end lv o i (length o) (S j) in
          reorder_pass lv i n' (S k) (reverse_range o j k)
        else reorder_pass lv i n' (S j) o
      else o
  end.

(** [runorder]: [iota(runstart..spos)], then for [i = max_level-1 .. 0]
    the regions of level [> i] are reversed. *)
Definition runorder (runs : list runInfo) (runstart spos : nat) : list nat :=
  let o := seq runstart (spos - runstart) in
  let lv := fun ri => embeddingLevel (run_at runs ri) in
  let max_level := fold_left (fun m ri => Z.max m (lv ri)) o 0 in
  fold_left (fun o i => reorder_pass lv i (length o) 0 o)
            (map Z.of_nat (rev (seq 0 (Z.to_nat max_level)))) o.

(** *** Alignment *)

(** [xpos] and [spaceadder] chosen by the alignment switch; [spaceadder]
    is the [double] [1.0 * spaceLeft / numSpace]. *)
Definition align_line (prop : LayoutProperties) (lineflags left right curWidth numSpace : Z) : Z * Q :=
  let spaceLeft := right - left - curWidth in
  let justify := Z.ltb 0 numSpace && negb (has_flag lineflags LF_LAST) in
  match align prop with
  | ALG_LEFT => (left + (if has_flag lineflags LF_FIRST then indent prop else 0), 0%Q)
  | ALG_RIGHT => (left + spaceLeft, 0%Q)
  | ALG_CENTER => (left + Z.quot spaceLeft 2, 0%Q)
  | ALG_JUSTIFY_LEFT =>
      (left + (if has_flag lineflags LF_FIRST then indent prop else 0),
       if justify then (inject_Z spaceLeft / inject_Z numSpace)%Q else 0%Q)
  | ALG_JUSTIFY_RIGHT =>
      if justify then (left, (inject_Z spaceLeft / inject_Z numSpace)%Q)
      else (left + spaceLeft, 0%Q)
  end.

(** Conversion of a [double] to an integer: truncation toward zero. *)
Definition Qtrunc (q : Q) : Z := Z.quot (Qnum q) (Zpos (Qden q)).

(** *** Placement and emission *)

Definition is_rect (c : CommandData) : bool :=
  match command c with CMD_RECT => true | _ => false end.

(** [cc.second.x += off] with [off] a [double]: the sum truncated. *)
Definition place_cmd (off : Q) (ypos : Z) (c : CommandData) : CommandData :=
  {| command := command c; cmd_x := Qtrunc (inject_Z (cmd_x c) + off); cmd_y := cmd_y c + ypos;
     cmd_w := cmd_w c; cmd_h := cmd_h c; cmd_font := cmd_font c;
     cmd_glyph := cmd_glyph c; cmd_c := cmd_c c; cmd_blurr := cmd_blurr c |}.

Definition widen_cmd (sa : Q) (c : CommandData) : CommandData :=
  {| command := command c; cmd_x := cmd_x c; cmd_y := cmd_y c;
     cmd_w := Qtrunc (inject_Z (cmd_w c) + sa); cmd_h := cmd_h c; cmd_font := cmd_font c;
     cmd_glyph := cmd_glyph c; cmd_c := cmd_c c; cmd_blurr := cmd_blurr c |}.

(** [runs[ri].links[0].areas[0].w += spaceadder] *)
Definition widen_first_link (sa : Q) (ls : list LinkInformation) : list LinkInformation :=
  match ls with
  | {| url := u; areas := r :: rs |} :: t =>
      {| url := u; areas := {| r_x := r_x r; r_y := r_y r; r_w := Qtrunc (inject_Z (r_w r) + sa);
                               r_h := r_h r |} :: rs |} :: t
  | _ => ls
  end.

Definition with_run_cmds (r : runInfo) (cs : list (nat * CommandData)) (ls : list LinkInformation) : runInfo :=
  {| run := cs; dx := dx r; dy := dy r; embeddingLevel := embeddingLevel r;
     linebreak := linebreak r; font := font r; space := space r; shy := shy r;
     ascender := ascender r; descender := descender r; links := ls |}.

(** One step of the placement loop over [runorder]; the state is
    ([runs], [l], [xpos2], [numSpace]). *)
Definition place_step (spos : nat) (ypos : Z) (lineflags : Z) (sa : Q)
    (st : list runInfo * TextLayout * Z * Z) (ri : nat) : list runInfo * TextLayout * Z * Z :=
  let '(runs, l, xpos2, ns) := st in
  let r := run_at runs ri in
  if negb (shy r) || Nat.eqb ri (spos - 1) then
    let off := (inject_Z xpos2 + sa * inject_Z ns)%Q in
    let r' :=
      if negb (space r) then
        with_run_cmds r (map (fun '(ly, c) => (ly, place_cmd off ypos c)) (run r)) (links r)
      else
        with_run_cmds r (map (fun '(ly, c) => if is_rect c then (ly, place_cmd off ypos (widen_cmd sa c))
                                              else (ly, c)) (run r))
                      (widen_first_link sa (links r)) in
    let runs' := set_nth runs ri r' in
    let l' := mergeLinks l (links r') (Qtrunc off) ypos in
    let ns' := if space r then ns + 1 else ns in
    let xpos2' := if negb (space r) then xpos2 + dx r
                  else if has_flag lineflags LF_SMALL_SPACE then xpos2 + Z.quot (9 * dx r) 10
                  else xpos2 + dx r in
    (runs', l', xpos2', ns')
  else st.

(** The commands of run [r] in layer [lay] that are output: all of them
    for non-space runs, only the rectangles for space runs. *)
Definition emit_run (r : runInfo) (lay : nat) : list (nat * CommandData) :=
  filter (fun '(ly, c) => Nat.eqb ly lay && (negb (space r) || is_rect c)) (run r).

Definition emit_layer (runs : list runInfo) (runstart spos : nat) (lay : nat) : list (nat * CommandData) :=
  flat_map (fun i => let r := run_at runs i in
                     if negb (shy r) || Nat.eqb i (spos - 1) then emit_run r lay else [])
           (seq runstart (spos - runstart)).

(** [for (layer = 0; layer < maxlayer; layer++)] outputting layer
    [maxlayer-layer-1]; the pairs keep the layer the command came from. *)
Definition emit_line (runs : list runInfo) (runstart spos maxlayer : nat) : list (nat * CommandData) :=
  flat_map (fun layer => emit_layer runs runstart spos (maxlayer - layer - 1)) (seq 0 maxlayer).

Definition max_layer (runs : list runInfo) (order : list nat) : nat :=
  fold_left (fun m ri => fold_left (fun m (p : nat * CommandData) => Nat.max m (S (fst p)))
                                   (run (run_at runs ri)) m) order 0%nat.

(** [addLine(runstart, spos, runs, l, ypos, curWidth, left, right,
    lineflags, numSpace, prop)]: returns the updated [runs] and [l]. *)
Definition addLine (runstart spos : nat) (runs : list runInfo) (l : TextLayout)
    (ypos curWidth left right lineflags numSpace : Z) (prop : LayoutProperties)
  : list runInfo * TextLayout :=
  let order := runorder runs runstart spos in
  let '(xpos, sa) := align_line prop lineflags left right curWidth numSpace in
  let '(runs', l', _, _) := fold_left (place_step spos ypos lineflags sa) order (runs, l, xpos, 0) in
  let ml := max_layer runs' order in
  (runs', add_commands l' (map snd (emit_line runs' runstart spos ml))).

(** ** Greedy line breaking ([breakLines]) *)

Definition lb_is_break (l : linebreak_t) : bool :=
  lb_eqb l LINEBREAK_ALLOWBREAK || lb_eqb l LINEBREAK_MUSTBREAK.

(** The line accumulated so far: [curAscend], [curDescend], [curWidth],
    [spos], [numSpace] (or the [new*] copies of them). *)
Record line_acc := { la_asc : Z; la_desc : Z; la_width : Z; la_spos : nat; la_space : nat }.

(** Condition that ends a break group at [newspos]. *)
Definition group_ends (runs : list runInfo) (newspos : nat) : bool :=
  (Nat.ltb (S newspos) (length runs) && space (run_at runs (S newspos))
   && lb_is_break (linebreak (run_at runs (S newspos))))
  || (negb (space (run_at runs newspos)) && lb_is_break (linebreak (run_at runs newspos))).

(** The inner [while (newspos < runs.size())] adding runs up to the next
    break point; [k] bounds the iterations ([k >= size - newspos]).  The
    returned [la_spos] is [newspos] before the final [newspos++]. *)
Fixpoint probe (runs : list runInfo) (k : nat) (a : line_acc) : line_acc :=
  match k with
  | O => a
  | S k' =>
      let np := la_spos a in
      if Nat.ltb np (length runs) then
        let r := run_at runs np in
        let a' := {| la_asc := Z.max (la_asc a) (ascender r);
                     la_desc := Z.min (la_desc a) (descender r);
                     la_width := la_width a + dx r;
                     la_spos := np;
                     la_space := if space r then S (la_space a) else la_space a |} in
        if group_ends runs np then a'
        else probe runs k' {| la_asc := la_asc a'; la_desc := la_desc a'; la_width := la_width a';
                              la_spos := S np; la_space := la_space a' |}
      else a
  end.

(** The candidate line with the next break group: probed, then
    [newspos++]. *)
Definition candidate_group (runs : list runInfo) (cur : line_acc) : line_acc :=
  let a := probe runs (length runs) cur in
  {| la_asc := la_asc a; la_desc := la_desc a; la_width := la_width a;
     la_spos := S (la_spos a); la_space := la_space a |}.

(** [shape.getLeft(ypos, ypos+newAscend-newDescend)+newWidth > shape.getRight(...)] *)
Definition overruns (shape : Shape) (ypos : Z) (a : line_acc) : bool :=
  Z.ltb (getRight shape ypos (ypos + la_asc a - la_desc a))
        (getLeft shape ypos (ypos + la_asc a - la_desc a) + la_width a).

Inductive line_step_result :=
  | LS_Reject                                (** the group overruns: [break] *)
  | LS_Commit (a : line_acc) (force : bool). (** taken over; [force]: forced break *)

(** One iteration of [while (spos < runs.size())] in [breakLines]. *)
Definition line_step (runs : list runInfo) (shape : Shape) (ypos : Z) (runstart : nat)
    (cur : line_acc) : line_step_result :=
  let spos := la_spos cur in
  let nw := candidate_group runs cur in
  if Nat.ltb runstart spos && overruns shape ypos nw then LS_Reject
  else
    let w := if Nat.ltb runstart spos && shy (run_at runs (spos - 1))
             then la_width nw - dx (run_at runs (spos - 1)) else la_width nw in
    let c := {| la_asc := la_asc nw; la_desc := la_desc nw; la_width := w;
                la_spos := la_spos nw; la_space := la_space nw |} in
    let sp := la_spos c in
    LS_Commit c (lb_eqb (linebreak (run_at runs (sp - 1))) LINEBREAK_MUSTBREAK
                 || (Nat.ltb sp (length runs) && space (run_at runs sp)
                     && lb_eqb (linebreak (run_at runs sp)) LINEBREAK_MUSTBREAK)).

(** The line loop; [None] when the bound [fuel] is exhausted. *)
Fixpoint line_loop (runs : list runInfo) (shape : Shape) (ypos : Z) (runstart : nat)
    (fuel : nat) (cur : line_acc) : option (line_acc * bool) :=
  if Nat.ltb (la_spos cur) (length runs) then
    match fuel with
    | O => None
    | S f =>
        match line_step runs shape ypos runstart cur with
        | LS_Reject => Some (cur, false)
        | LS_Commit c true => Some (c, true)
        | LS_Commit c false => line_loop runs shape ypos runstart f c
        end
    end
  else Some (cur, false).

(** [while (runstart < runs.size() && runs[runstart].space) runstart++] *)
Fixpoint skip_spaces (runs : list runInfo) (k runstart : nat) : nat :=
  match k with
  | O => runstart
  | S k' => if Nat.ltb runstart (length runs) && space (run_at runs runstart)
            then skip_spaces runs k' (S runstart) else runstart
  end.

Record bl_state := {
  b_runs : list runInfo; b_runstart : nat; b_ypos : Z; b_l : TextLayout; b_firstline : bool
}.

(** The body of the outer [while (runstart < runs.size())] of [breakLines]. *)
Definition bl_iter (shape : Shape) (prop : LayoutProperties) (st : bl_state) : option bl_state :=
  let runs := b_runs st in
  let ypos := b_ypos st in
  let runstart := skip_spaces runs (length runs) (b_runstart st) in
  let w0 := if b_firstline st && negb (match align prop with ALG_CENTER => true | _ => false end)
            then indent prop else 0 in
  match line_loop runs shape ypos runstart (length runs)
          {| la_asc := 0; la_desc := 0; la_width := w0; la_spos := runstart; la_space := 0 |} with
  | None => None
  | Some (c, fb) =>
      let spos := la_spos c in
      let forcebreak := fb || Nat.eqb spos (length runs) in
      let top := ypos in
      let bot := ypos + la_asc c - la_desc c in
      let '(runs', l') :=
        addLine runstart spos runs (b_l st) (ypos + la_asc c) (la_width c)
                (getLeft shape top bot) (getRight shape top bot)
                ((if b_firstline st then LF_FIRST else 0) + (if forcebreak then LF_LAST else 0))
                (Z.of_nat (la_space c)) prop in
      let l'' := if b_firstline st then setFirstBaseline l' (ypos + la_asc c) else l' in
      Some {| b_runs := runs'; b_runstart := spos; b_ypos := bot; b_l := l''; b_firstline := false |}
  end.

Fixpoint bl_loop (shape : Shape) (prop : LayoutProperties) (fuel : nat) (st : bl_state) : option bl_state :=
  if Nat.ltb (b_runstart st) (length (b_runs st)) then
    match fuel with
    | O => None
    | S f => match bl_iter shape prop st with
             | Some st' => bl_loop shape prop f st'
             | None => None
             end
    end
  else Some st.

Definition bl_init (runs : list runInfo) (ystart : Z) : bl_state :=
  {| b_runs := runs; b_runstart := 0; b_ypos := ystart; b_l := emptyLayout; b_firstline := true |}.

(** [breakLines(runs, shape, prop, ystart)], with at most [runs.size()]
    iterations of the outer loop. *)
Definition breakLines (runs : list runInfo) (shape : Shape) (prop : LayoutProperties) (ystart : Z)
  : res TextLayout :=
  match bl_loop shape prop (length runs) (bl_init runs ystart) with
  | Some st => inr (finish_layout (b_l st) (b_ypos st)
                                  (getLeft2 shape ystart (b_ypos st)) (getRight2 shape ystart (b_ypos st)))
  | None => inl LoopBound
  end.

(** ** Optimizing line breaking ([breakLinesOptimize]) *)

(** *** [float] values: rationals with signed infinities and NaN *)
Inductive xq := XF (q : Q) | XInf (neg : bool) | XNaN.

Definition xsign (q : Q) : Z := Z.sgn (Qnum q).

Definition xadd (a b : xq) : xq :=
  match a, b with
  | XNaN, _ | _, XNaN => XNaN
  | XInf s, XInf t => if Bool.eqb s t then XInf s else XNaN
  | XInf s, XF _ | XF _, XInf s => XInf s
  | XF p, XF q => XF (p + q)%Q
  end.

Definition xneg (a : xq) : xq :=
  match a with XF q => XF (- q)%Q | XInf s => XInf (negb s) | XNaN => XNaN end.

Definition xsub (a b : xq) : xq := xadd a (xneg b).

(** infinity times a value of sign [z] *)
Definition xinf_times (s : bool) (z : Z) : xq :=
  if Z.eqb z 0 then XNaN else XInf (if Z.ltb z 0 then negb s else s).

Definition xmul (a b : xq) : xq :=
  match a, b with
  | XNaN, _ | _, XNaN => XNaN
  | XInf s, XInf t => XInf (xorb s t)
  | XInf s, XF q | XF q, XInf s => xinf_times s (xsign q)
  | XF p, XF q => XF (p * q)%Q
  end.

Definition xdiv (a b : xq) : xq :=
  match a, b with
  | XNaN, _ | _, XNaN => XNaN
  | XInf _, XInf _ => XNaN
  | XInf s, XF q => if Z.eqb (xsign q) 0 then XInf s else xinf_times s (xsign q)
  | XF _, XInf _ => XF 0
  | XF p, XF q => if Z.eqb (xsign q) 0
                  then (if Z.eqb (xsign p) 0 then XNaN else XInf (Z.ltb (xsign p) 0))
                  else XF (p / q)%Q
  end.

Definition xabs (a : xq) : xq :=
  match a with XF q => XF (Qabs q) | XInf _ => XInf false | XNaN => XNaN end.

(** [a < b]; false when either is NaN. *)
Definition xlt (a b : xq) : bool :=
  match a, b with
  | XNaN, _ | _, XNaN => false
  | XF p, XF q => negb (Qle_bool q p)
  | XInf s, XInf t => s && negb t
  | XInf s, XF _ => s
  | XF _, XInf t => negb t
  end.

Definition xge (a b : xq) : bool :=
  match a, b with XNaN, _ | _, XNaN => false | _, _ => negb (xlt a b) end.

Definition xeqb (a b : xq) : bool :=
  match a, b with
  | XF p, XF q => Qeq_bool p q
  | XInf s, XInf t => Bool.eqb s t
  | _, _ => false
  end.

Definition xz (z : Z) : xq := XF (inject_Z z).

(** [std::numeric_limits<int>::max()] stored in a [float]: 2^31. *)
Definition INT_MAX_F : xq := xz 2147483648.

(** *** The table [li] *)

Record lineinfo := {
  from : nat; demerits : xq;
  li_ascend : Z; li_descend : Z; li_width : Z; li_spaces : Z; li_ypos : Z;
  li_forcebreak : bool; linetype : Z; hypen : bool; start : bool
}.

(** A value-initialised [lineinfo]. *)
Definition li_zero : lineinfo :=
  {| from := 0; demerits := xz 0; li_ascend := 0; li_descend := 0; li_width := 0; li_spaces := 0;
     li_ypos := 0; li_forcebreak := false; linetype := 0; hypen := false; start := false |}.

Definition li_at (li : list lineinfo) (i : nat) : lineinfo := nth i li li_zero.

Definition li_set_demerits (x : lineinfo) (d : xq) : lineinfo :=
  {| from := from x; demerits := d; li_ascend := li_ascend x; li_descend := li_descend x;
     li_width := li_width x; li_spaces := li_spaces x; li_ypos := li_ypos x;
     li_forcebreak := li_forcebreak x; linetype := linetype x; hypen := hypen x; start := start x |}.

Definition li_set_ypos (x : lineinfo) (y : Z) : lineinfo :=
  {| from := from x; demerits := demerits x; li_ascend := li_ascend x; li_descend := li_descend x;
     li_width := li_width x; li_spaces := li_spaces x; li_ypos := y;
     li_forcebreak := li_forcebreak x; linetype := linetype x; hypen := hypen x; start := start x |}.

(** [while (runs[s1].space) s1++] and [while (runs[s2-1].space) s2--];
    [k] bounds the iterations (a read past either end is undefined). *)
Fixpoint skip_fwd (runs : list runInfo) (k s : nat) : nat :=
  match k with
  | O => s
  | S k' => if space (run_at runs s) then skip_fwd runs k' (S s) else s
  end.

Fixpoint skip_bwd (runs : list runInfo) (k s : nat) : nat :=
  match k, s with
  | S k', S s' => if space (run_at runs s') then skip_bwd runs k' s' else s
  | _, _ => s
  end.

(** *** One candidate line [start-1 .. i) *)

(** Line measures accumulated over [s1 .. s2): [Ascend], [Descend],
    [Width], [Space], [optimalStretch], [spaceWidth]. *)
Record opt_acc := { o_asc : Z; o_desc : Z; o_width : Z; o_space : Z; o_stretch : Z; o_spaceWidth : Z }.

Definition opt_measure (runs : list runInfo) (s1 s2 : nat) (w0 : Z) : opt_acc :=
  fold_left (fun a j =>
               let r := run_at runs j in
               if negb (shy r) || Nat.eqb j (s2 - 1) then
                 {| o_asc := Z.max (o_asc a) (ascender r);
                    o_desc := Z.min (o_desc a) (descender r);
                    o_width := if space r then o_width a + Z.quot (dx r * 9) 10 else o_width a + dx r;
                    o_space := if space r then o_space a + 1 else o_space a;
                    o_stretch := if space r then o_stretch a + Z.quot (dx r) 10 else o_stretch a;
                    o_spaceWidth := if space r then o_spaceWidth a + dx r else o_spaceWidth a |}
               else a)
            (seq s1 (s2 - s1))
            {| o_asc := 0; o_desc := 0; o_width := w0; o_space := 0; o_stretch := 0; o_spaceWidth := 0 |}.

(** The line type from the badness: 0 tight, 1 decent, 2 loose, 3 very loose. *)
Definition line_type (badness fillin optimalFillin : xq) : Z :=
  if xge badness (xz 100) then 3
  else if xge badness (xz 13) then (if xlt optimalFillin fillin then 2 else 0)
  else 1.

(** What the body of [for (start = i; start > 0; start--)] computes for one
    start: [None] for the [break] of an over-long line, otherwise the
    line's [demerits] (before adding [li[start-1].demerits]), [force] and
    the properties recorded when it wins. *)
Record cand := {
  c_demerits : xq; c_force : bool; c_acc : opt_acc; c_linetype : Z; c_hypen : bool;
  c_left : Z; c_right : Z
}.

Definition opt_candidate (runs : list runInfo) (shape : Shape) (prop : LayoutProperties)
    (li : list lineinfo) (i st : nat) : option cand :=
  let prev := li_at li (st - 1) in
  let w0 := if Nat.eqb st 1 && negb (match align prop with ALG_CENTER => true | _ => false end)
            then indent prop else 0 in
  let s1 := skip_fwd runs (length runs + 1) (st - 1) in
  let s2 := skip_bwd runs (length runs + 1) i in
  let m := opt_measure runs s1 s2 w0 in
  let top := li_ypos prev in
  let bot := li_ypos prev + o_asc m - o_desc m in
  let L := getLeft shape top bot in
  let R := getRight shape top bot in
  if Z.ltb R (L + o_width m) then None
  else
    let fillin := xz (R - L - o_width m) in
    let optimalFillin := xz (o_spaceWidth m - o_width m) in
    let fillinDifference := xabs (xsub fillin optimalFillin) in
    let q := xdiv fillinDifference optimalFillin in
    let badness := xmul (xz 100) (xmul q (xmul q q)) in
    let lt := line_type badness fillin optimalFillin in
    let d0 := xmul (xadd (xz 10) badness) (xadd (xz 10) badness) in
    let lastshy := shy (run_at runs (s2 - 1)) in
    let d1 := if lastshy && hypen prev then xadd d0 (xz 10000) else d0 in
    let d2 := if Z.ltb 1 (Z.abs (lt - linetype prev)) then xadd d1 (xz 10000) else d1 in
    let d3 := if negb (Z.eqb lt (linetype prev)) then xadd d2 (xz 5000) else d2 in
    let final := lb_eqb (linebreak (run_at runs (i - 1))) LINEBREAK_MUSTBREAK
                 || Nat.eqb i (length runs) in
    let '(d4, force) :=
      if final then ((if Z.ltb (Z.quot (R - L) 3) (o_width m) then xz 0 else xz 100000), true)
      else (d3, false) in
    Some {| c_demerits := d4; c_force := force; c_acc := m; c_linetype := lt;
            c_hypen := lastshy; c_left := L; c_right := R |}.

(** The start loop for end [i], improving [li[i]] ([cur]). *)
Fixpoint start_loop (runs : list runInfo) (shape : Shape) (prop : LayoutProperties)
    (li : list lineinfo) (i : nat) (k st : nat) (cur : lineinfo) : lineinfo :=
  match k, st with
  | S k', S st' =>
      let prev := li_at li st' in
      if xeqb (demerits prev) INT_MAX_F then start_loop runs shape prop li i k' st' cur
      else
        match opt_candidate runs shape prop li i st with
        | None => cur
        | Some c =>
            let d := xadd (c_demerits c) (demerits prev) in
            let cur' :=
              if xlt d (demerits cur) then
                let m := c_acc c in
                {| from := st'; demerits := d; li_ascend := o_asc m; li_descend := o_desc m;
                   li_width := o_width m; li_spaces := o_space m;
                   li_ypos := li_ypos prev + o_asc m - o_desc m;
                   li_forcebreak := c_force c; linetype := c_linetype c; hypen := c_hypen c;
                   start := false |}
              else cur in
            start_loop runs shape prop li i k' st' cur'
        end
  | _, _ => cur
  end.

(** [while (!li[ii].start) { breaks.push_back(ii); ii = li[ii].from; }
    breaks.push_back(ii);] *)
Fixpoint break_chain (li : list lineinfo) (k ii : nat) : list nat :=
  match k with
  | O => [ii]
  | S k' => if start (li_at li ii) then [ii] else ii :: break_chain li k' (from (li_at li ii))
  end.

(** [for (ii = breaks.size()-1; ii > 0; ii--)]: emit the line from
    [breaks[ii]] to [breaks[ii-1]]; [ii] runs over [n, n-1, .., 1]. *)
Fixpoint emit_lines (shape : Shape) (prop : LayoutProperties) (breaks : list nat) (top : nat)
    (iis : list nat) (runs : list runInfo) (li : list lineinfo) (l : TextLayout)
  : list runInfo * list lineinfo * TextLayout :=
  match iis with
  | [] => (runs, li, l)
  | ii :: rest =>
      let bi := nth (ii - 1) breaks 0%nat in
      let ci := nth ii breaks 0%nat in
      let bb := li_at li bi in
      let cc := li_at li ci in
      let s1 := skip_fwd runs (length runs + 1) ci in
      let s2 := skip_bwd runs (length runs + 1) bi in
      let flags := (if Nat.eqb ii top then LF_FIRST else 0) + (if Nat.eqb ii 1 then LF_LAST else 0)
                   + LF_SMALL_SPACE in
      let topy := li_ypos cc in
      let boty := li_ypos cc + li_ascend bb - li_descend bb in
      let '(runs', l') := addLine s1 s2 runs l (li_ypos cc + li_ascend bb) (li_width bb)
                            (getLeft shape topy boty) (getRight shape topy boty)
                            flags (li_spaces bb) prop in
      let l'' := if Nat.eqb ii top then setFirstBaseline l' (li_ypos cc + li_ascend bb) else l' in
      let li' := set_nth li ci (li_set_ypos cc boty) in
      emit_lines shape prop breaks top rest runs' li' l''
  end.

(** The main [for (size_t i = 1; i < runs.size()+1; i++)] loop, with its
    restart [i = 0] after a forced break; [None] when [fuel] runs out. *)
Fixpoint opt_loop (shape : Shape) (prop : LayoutProperties) (fuel : nat) (i : nat)
    (runs : list runInfo) (li : list lineinfo) (l : TextLayout)
  : option (list runInfo * list lineinfo * TextLayout) :=
  if Nat.ltb i (length runs + 1) then
    match fuel with
    | O => None
    | S f =>
        let li_i0 := li_set_demerits (li_at li i) INT_MAX_F in
        let li_i := if lb_is_break (linebreak (run_at runs (i - 1)))
                    then start_loop runs shape prop li i i i li_i0 else li_i0 in
        let li1 := set_nth li i li_i in
        if lb_eqb (linebreak (run_at runs (i - 1))) LINEBREAK_MUSTBREAK || Nat.eqb i (length runs) then
          let breaks := break_chain li1 (S i) i in
          let top := (length breaks - 1)%nat in
          let '(runs2, li2, l2) := emit_lines shape prop breaks top (rev (seq 1 top)) runs li1 l in
          let runs3 := skipn i runs2 in
          let li3 := set_nth li2 0 (li_set_ypos (li_at li2 0) (li_ypos (li_at li2 i))) in
          opt_loop shape prop f 1 runs3 li3 l2
        else opt_loop shape prop f (S i) runs li1 l
    end
  else Some (runs, li, l).

Definition breakLinesOptimize (runs : list runInfo) (shape : Shape) (prop : LayoutProperties)
    (ystart : Z) : res TextLayout :=
  let li0 := {| from := 0; demerits := xz 0; li_ascend := 0; li_descend := 0; li_width := 0;
                li_spaces := 0; li_ypos := ystart; li_forcebreak := false; linetype := 0;
                hypen := false; start := true |} in
  let li := li0 :: repeat li_zero (length runs) in
  match opt_loop shape prop (S (length runs)) 1 runs li emptyLayout with
  | Some (_, li', l) =>
      let y := li_ypos (li_at li' 0) in
      inr (finish_layout l y (getLeft2 shape ystart y) (getRight2 shape ystart y))
  | None => inl LoopBound
  end.

(** ** [layoutParagraph] *)

Definition layoutParagraph (env : Collaborators) (txt : list Z) (a : AttributeIndex) (shape : Shape)
    (prop : LayoutProperties) (ystart : Z) : res TextLayout :=
  match fribidi_levels env txt (ltr prop) with
  | None => inl BidiFailure
  | Some levels =>
      let v0 := mkView txt a levels in
      let v1 := getLinebreaks env v0 in
      let v2 := if hyphenate prop then getHyphens env v1 else v1 in
      let* runs := createTextRuns env v2 prop in
      if optimizeLinebreaks prop then breakLinesOptimize runs shape prop ystart
      else breakLines runs shape prop ystart
  end.

(** ** Concrete collaborators for evaluation *)

Definition black : Color := Build_Color 0 0 0 255.

Definition ex_fontset : FontSet :=
  {| fs_get := fun _ => None; fs_underlinePosition := 0; fs_underlineThickness := 0 |}.

Definition ex_attr (lang : string) : CodepointAttributes :=
  {| a_font := ex_fontset; a_c := black; a_lang := lang; a_baseline_shift := 0;
     a_inlay := None; a_link := 0; a_shadows := []; a_underline := false |}.

(** An attribute index giving position [i] the language [langs[i]]. *)
Definition ex_index (langs : list string) : AttributeIndex :=
  {| ai_get := fun i => ex_attr (nth i langs EmptyString); ai_has := fun _ => true |}.

(** Word breaks as a word-break analyzer reports them for plain
    letters: a break after the last position and around spaces and NUL. *)
Definition is_sep (c : Z) : bool := Z.eqb c 0x20 || Z.eqb c 0.

Definition simple_wordbreaks (s : list Z) (_ : string) : list wordbreak_t :=
  map (fun k => if Nat.eqb (S k) (length s) || is_sep (nth k s 0) || is_sep (nth (S k) s 0)
                then WORDBREAK_BREAK else WORDBREAK_NOBREAK)
      (seq 0 (length s)).

(** A dictionary allowing a hyphen after the second letter of words of
    three or more letters. *)
Definition ex_dict : HyphenDict :=
  fun w => map (fun l => if Nat.eqb l 1 && Nat.leb 3 (length w) then (1, 0%nat) else (0, 0%nat))
               (seq 0 (S (length w))).

Definition ex_env : Collaborators :=
  {| fribidi_levels := fun t _ => Some (repeat 0 (length t));
     set_linebreaks_utf32 := fun s _ =>
       map (fun k => if Nat.eqb (S k) (length s) then LINEBREAK_MUSTBREAK else LINEBREAK_NOBREAK)
           (seq 0 (length s));
     set_wordbreaks_utf32 := simple_wordbreaks;
     getHyphenDict := fun l => if String.eqb l "en"%string then Some ex_dict else None;
     hb_shape := fun _ buf _ _ _ => unshaped buf |}.

(** A face holding every glyph, and a font set that picks it for every
    codepoint. *)
Definition ex_font : FontFace :=
  {| ff_id := 1; ff_ascender := 640; ff_descender := -128; ff_underlinePosition := -64;
     ff_underlineThickness := 64; ff_containsGlyph := fun _ => true |}.

Definition ex_fontset_all : FontSet :=
  {| fs_get := fun _ => Some ex_font; fs_underlinePosition := -64; fs_underlineThickness := 64 |}.

(** An inline object of width 640 and height 640 drawing one rectangle. *)
Definition ex_inlay : Inlay :=
  {| inlay_height := 640; inlay_right := 640; inlay_data := [rect_cmd 0 0 640 640 black 0] |}.

(** Every position is an inline object, with the face above. *)
Definition ex_inlay_index : AttributeIndex :=
  {| ai_get := fun _ => {| a_font := ex_fontset_all; a_c := black; a_lang := "en"%string;
                           a_baseline_shift := 0; a_inlay := Some ex_inlay; a_link := 0;
                           a_shadows := []; a_underline := false |};
     ai_has := fun _ => true |}.

(** Every position is plain text, with the face above. *)
Definition ex_text_index : AttributeIndex :=
  {| ai_get := fun _ => {| a_font := ex_fontset_all; a_c := black; a_lang := "en"%string;
                           a_baseline_shift := 0; a_inlay := None; a_link := 0;
                           a_shadows := []; a_underline := false |};
     ai_has := fun _ => true |}.

(** A shaper that advances every glyph by 640 horizontally and by
    [ya] vertically. *)
Definition ex_env_advancing (ya : Z) : Collaborators :=
  {| fribidi_levels := fribidi_levels ex_env;
     set_linebreaks_utf32 := set_linebreaks_utf32 ex_env;
     set_wordbreaks_utf32 := set_wordbreaks_utf32 ex_env;
     getHyphenDict := getHyphenDict ex_env;
     hb_shape := fun _ buf _ _ _ =>
       map (fun '(cp, cl) => {| g_codepoint := cp; g_cluster := cl; x_offset := 0; y_offset := 0;
                                x_advance := 640; y_advance := ya |}) buf |}.

(** A rectangular column from 0 to [w]. *)
Definition ex_shape (w : Z) : Shape :=
  {| getLeft := fun _ _ => 0; getRight := fun _ _ => w;
     getLeft2 := fun _ _ => 0; getRight2 := fun _ _ => w |}.

Definition ex_prop (optimize : bool) : LayoutProperties :=
  {| ltr := true; align := ALG_LEFT; indent := 0; hyphenate := false;
     optimizeLinebreaks := optimize; underlineFont := None; prop_links := [] |}.

(** A run of no commands, of advance [w], ending in the break [lb]. *)
Definition ex_run (w : Z) (lb : linebreak_t) : runInfo :=
  {| run := []; dx := w; dy := 0; embeddingLevel := 0; linebreak := lb; font := None;
     space := false; shy := false; ascender := 640; descender := -128; links := [] |}.

(** The view of "ab" with no attributes of interest. *)
Definition ex_view_ab : LayoutDataView := mkView [0x61; 0x62] (ex_index []) [0; 0].

(** [v'] is [v] with possibly more hyphenation marks: same text, index
    map, attributes, levels and line breaks, a marks vector no longer than
    the view, every mark of [v] kept and the mark at 0 unchanged. *)
Definition hyph_ext (v v' : LayoutDataView) : Prop :=
  txt32 v' = txt32 v /\ idx v' = idx v /\ attr v' = attr v
  /\ embeddingLevels v' = embeddingLevels v /\ linebreaks v' = linebreaks v
  /\ (length (hyphens v') <= length (idx v'))%nat
  /\ (forall p, hyp v p = true -> hyp v' p = true)
  /\ hyp v' 0 = hyp v 0.

(** The view of "a b" with plain-text attributes. *)
Definition ex_view_asb : LayoutDataView := mkView [0x61; 0x20; 0x62] ex_text_index [0; 0; 0].

(** The horizontal advance a glyph contributes to its run: the inline
    object's width for an inline-object cluster, the shaper's [x_advance]
    otherwise. *)
Definition glyph_advance (v : LayoutDataView) (g : GlyphOut) : Z :=
  match a_inlay (att v (g_cluster g)) with
  | Some i => inlay_right i
  | None => x_advance g
  end.


(** A right-to-left run: [ex_run 10 LINEBREAK_NOBREAK] at embedding level 1. *)
Definition ex_run_rtl : runInfo :=
  {| run := []; dx := 10; dy := 0; embeddingLevel := 1; linebreak := LINEBREAK_NOBREAK;
     font := None; space := false; shy := false; ascender := 640; descender := -128; links := [] |}.

(** ** The XHTML front end (src/layouterXHTML.cpp) *)

(** One iteration of the loop of [normalizeHTML(in, prev)] on the state
    [(out, prev)]: ['\n'] and ['\r'] become [' '], the character is
    appended unless it and [prev] are both spaces, and [prev] becomes it. *)
Definition normalize_step (st : list ascii * ascii) (a : ascii) : list ascii * ascii :=
  let '(out, prev) := st in
  let a := if Ascii.eqb a "010"%char || Ascii.eqb a "013"%char then " "%char else a in
  (if negb (Ascii.eqb a " "%char) || negb (Ascii.eqb prev " "%char) then out ++ [a] else out, a).

Definition normalizeHTML (in_ : list ascii) (prev : ascii) : list ascii :=
  fst (fold_left normalize_step in_ ([], prev)).

(** The character mapping at the head of the loop body. *)
Definition nl_space (a : ascii) : ascii :=
  if Ascii.eqb a "010"%char || Ascii.eqb a "013"%char then " "%char else a.

(** No two adjacent spaces. *)
Fixpoint no_double_space (s : list ascii) : bool :=
  match s with
  | a :: ((b :: _) as t) => negb (Ascii.eqb a " "%char && Ascii.eqb b " "%char) && no_double_space t
  | _ => true
  end.

(** * Properties *)

(** ** The view's index map *)

Lemma view_copy_spec : forall t i txt ix,
  view_copy t i = (txt, ix) ->
  StronglySorted Nat.lt ix
  /\ (forall k, In k ix <-> (i <= k < i + length t)%nat /\ isBidiCharacter (nth (k - i) t 0) = false)
  /\ txt = map (fun k => nth (k - i) t 0) ix.
Proof.
  induction t as [|c t IH]; intros i txt ix H; simpl in H.
  - inversion H; subst. split; [constructor|]. split; [|reflexivity].
    intros k; simpl; split; [intros []|lia].
  - destruct (view_copy t (S i)) as [txt' ix'] eqn:E.
    destruct (IH _ _ _ E) as (Hs & Hin & Ht).
    destruct (isBidiCharacter c) eqn:B; simpl in H; inversion H; subst; clear H.
    + split; [exact Hs|]. split.
      * intros k. rewrite Hin. simpl. split.
        -- intros [Hr Hb]. replace (k - i)%nat with (S (k - S i)) by lia. simpl. split; [lia | exact Hb].
        -- intros [Hr Hb]. destruct (Nat.eq_dec k i) as [->|Hne].
           { rewrite Nat.sub_diag in Hb. simpl in Hb. congruence. }
           replace (k - i)%nat with (S (k - S i)) in Hb by lia. simpl in Hb. split; [lia | exact Hb].
      * apply map_ext_in. intros k Hk. apply Hin in Hk.
        replace (k - i)%nat with (S (k - S i)) by lia. reflexivity.
    + split; [|split].
      * constructor; auto. apply Forall_forall. intros k Hk. apply Hin in Hk. lia.
      * intros k. simpl. split.
        -- intros [->|Hk]. { rewrite Nat.sub_diag. simpl. split; [lia | exact B]. }
           apply Hin in Hk. destruct Hk as [Hr Hb].
           replace (k - i)%nat with (S (k - S i)) by lia. simpl. split; [lia | exact Hb].
        -- intros [Hr Hb]. destruct (Nat.eq_dec k i) as [->|Hne]; [left; reflexivity|].
           right. apply Hin. replace (k - i)%nat with (S (k - S i)) in Hb by lia.
           simpl in Hb. split; [lia | exact Hb].
      * simpl. rewrite Nat.sub_diag. simpl. f_equal.
        apply map_ext_in. intros k Hk. apply Hin in Hk.
        replace (k - i)%nat with (S (k - S i)) by lia. reflexivity.
Qed.

(** C7: the normalized-to-original index map [idx] of the view is strictly
    increasing; an original position [k] is absent from it exactly when its
    codepoint is U+202A, U+202B or U+202C (every other position appears);
    and the view's text is the original text at those positions. *)
Theorem view_idx_monotone_and_complete : forall t a e,
  let v := mkView t a e in
  StronglySorted Nat.lt (idx v)
  /\ (forall k, (k < length t)%nat ->
        (~ In k (idx v) <-> In (nth k t 0) [0x202A; 0x202B; 0x202C]))
  /\ txt32 v = map (fun k => nth k t 0) (idx v).
Proof.
  intros t a e v. unfold v, mkView.
  destruct (view_copy t 0) as [txt ix] eqn:E. simpl.
  destruct (view_copy_spec _ _ _ _ E) as (Hs & Hin & Ht).
  split; [exact Hs|]. split.
  - intros k Hk. rewrite Hin, Nat.sub_0_r.
    assert (Hb : isBidiCharacter (nth k t 0) = true <-> In (nth k t 0) [0x202A; 0x202B; 0x202C]).
    { unfold isBidiCharacter. rewrite !Bool.orb_true_iff, !Z.eqb_eq. simpl.
      split; intros H; [destruct H as [[H|H]|H]; auto | destruct H as [H|[H|[H|[]]]]; auto]. }
    rewrite <- Hb. destruct (isBidiCharacter (nth k t 0)); split; intros H.
    + reflexivity.
    + intros [_ H']; discriminate.
    + exfalso; apply H; split; [lia|reflexivity].
    + discriminate.
  - rewrite Ht. apply map_ext. intros k. rewrite Nat.sub_0_r. reflexivity.
Qed.

(** ** Hyphenation analysis *)

(** C1: the dictionary of every language section is looked up with the
    language of the view's first position ([view.att(0).lang]), and a
    section is extended while positions carry that language.  On "abc"
    tagged en/de/de the sections starting at 1 and 2 are looked up as
    "en", and the "de" positions 1 and 2 form two sections, not one. *)
Lemma getHyphens_uses_first_language :
  let v := mkView [0x61; 0x62; 0x63] (ex_index ["en"; "de"; "de"]%string) [0; 0; 0] in
  a_lang (att v 1) = "de"%string /\ a_lang (att v 2) = "de"%string
  /\ filter (fun e => match e with DictLookup _ _ _ => true | _ => false end)
            (snd (getHyphens_trace ex_env v))
     = [DictLookup 0 1 "en"; DictLookup 1 2 "en"; DictLookup 2 3 "en"]%string.
Proof. vm_compute. repeat split; reflexivity. Qed.

(** C2: the soft-hyphen check and the word handed to the hyphenator use
    the section-relative word bounds as absolute positions.  In
    "a b\u00ADc" (the space untagged, so the second section starts at 2),
    the word "b\u00ADc" at positions 2..4 holds a user soft hyphen; the
    check looks at positions 0..2 instead, the hyphenator gets "a b", and
    position 4, inside "b\u00ADc", is marked as a hyphenation point. *)
Lemma getHyphens_marks_inside_soft_hyphen_word :
  let v := mkView [0x61; 0x20; 0x62; 0xAD; 0x63] (ex_index ["en"; ""; "en"; "en"; "en"]%string)
                  [0; 0; 0; 0; 0] in
  substr (txt32 v) 2 3 = [0x62; 0xAD; 0x63]
  /\ simple_wordbreaks (cslice v 2 4) "en" = [WORDBREAK_NOBREAK; WORDBREAK_NOBREAK; WORDBREAK_BREAK; WORDBREAK_BREAK]
  /\ In (Hyphenate 2 0 3 [0x61; 0x20; 0x62]) (snd (getHyphens_trace ex_env v))
  /\ hyp (getHyphens ex_env v) 4 = true.
Proof.
  vm_compute. repeat split; try reflexivity.
  repeat (first [left; reflexivity | right]).
Qed.

(** ** Greedy breaker *)

Lemma probe_spos_ge : forall runs k a, (la_spos a <= la_spos (probe runs k a))%nat.
Proof.
  intros runs k. induction k as [|k IH]; intros a; simpl; [lia|].
  destruct (Nat.ltb (la_spos a) (length runs)); [|lia].
  destruct (group_ends runs (la_spos a)); simpl; [lia|].
  specialize (IH {| la_asc := Z.max (la_asc a) (ascender (run_at runs (la_spos a)));
                    la_desc := Z.min (la_desc a) (descender (run_at runs (la_spos a)));
                    la_width := la_width a + dx (run_at runs (la_spos a));
                    la_spos := S (la_spos a);
                    la_space := if space (run_at runs (la_spos a)) then S (la_space a) else la_space a |}).
  simpl in IH. lia.
Qed.

Lemma candidate_group_advances : forall runs cur,
  (la_spos cur < la_spos (candidate_group runs cur))%nat.
Proof.
  intros runs cur. unfold candidate_group. simpl.
  pose proof (probe_spos_ge runs (length runs) cur). lia.
Qed.

Lemma line_step_commit_spos : forall runs shape ypos runstart cur c f,
  line_step runs shape ypos runstart cur = LS_Commit c f ->
  la_spos c = la_spos (candidate_group runs cur).
Proof.
  intros runs shape ypos runstart cur c f H. unfold line_step in H.
  destruct (Nat.ltb runstart (la_spos cur) && overruns shape ypos (candidate_group runs cur));
    inversion H; subst; reflexivity.
Qed.

(** From an empty line the step commits. *)
Lemma line_step_empty_commits : forall runs shape ypos runstart cur,
  la_spos cur = runstart ->
  exists c f, line_step runs shape ypos runstart cur = LS_Commit c f.
Proof.
  intros runs shape ypos runstart cur Hs. unfold line_step.
  replace (Nat.ltb runstart (la_spos cur)) with false by (symmetry; apply Nat.ltb_ge; lia).
  simpl. do 2 eexists. reflexivity.
Qed.

(** C3: in the greedy breaker a candidate break group is rejected exactly
    when the line already holds a run ([runstart < spos]) and the line
    with the group overruns the shape's column at the tentative height;
    on an empty line ([spos = runstart]) the group is committed, whether
    it overruns or not, and the line's end strictly advances. *)
Theorem greedy_overrun_rejected_only_on_nonempty_line : forall runs shape ypos runstart cur,
  (line_step runs shape ypos runstart cur = LS_Reject <->
     (runstart < la_spos cur)%nat /\ overruns shape ypos (candidate_group runs cur) = true)
  /\ (la_spos cur = runstart ->
      exists c f, line_step runs shape ypos runstart cur = LS_Commit c f
                  /\ la_spos c = la_spos (candidate_group runs cur)
                  /\ (la_spos cur < la_spos c)%nat).
Proof.
  intros runs shape ypos runstart cur. split.
  - unfold line_step. destruct (Nat.ltb_spec runstart (la_spos cur));
      destruct (overruns shape ypos (candidate_group runs cur)); simpl;
      split; intros H'; try discriminate; try reflexivity; try (split; [lia|reflexivity]);
      destruct H' as [H1 H2]; try lia; discriminate.
  - intros Hs. destruct (line_step_empty_commits runs shape ypos runstart cur Hs) as (c & f & E).
    exists c, f. split; [exact E|]. pose proof (line_step_commit_spos _ _ _ _ _ _ _ E) as Hc.
    split; [exact Hc|]. rewrite Hc. apply candidate_group_advances.
Qed.

Lemma set_nth_length : forall {A} (l : list A) i x, length (set_nth l i x) = length l.
Proof. induction l as [|h t IH]; intros [|i] x; simpl; auto. Qed.

Lemma place_step_length : forall spos ypos flags sa order st,
  length (fst (fst (fst (fold_left (place_step spos ypos flags sa) order st))))
  = length (fst (fst (fst st))).
Proof.
  intros spos ypos flags sa order. induction order as [|ri o IH]; intros st; simpl; [reflexivity|].
  rewrite IH. destruct st as [[[runs l] x] n]. unfold place_step.
  destruct (negb (shy (run_at runs ri)) || Nat.eqb ri (spos - 1)); simpl;
    [apply set_nth_length | reflexivity].
Qed.

Lemma addLine_length : forall runstart spos runs l ypos w left right flags ns prop,
  length (fst (addLine runstart spos runs l ypos w left right flags ns prop)) = length runs.
Proof.
  intros. unfold addLine.
  destruct (align_line prop flags left right w ns) as [xpos sa].
  pose proof (place_step_length spos ypos flags sa (runorder runs runstart spos) (runs, l, xpos, 0)) as H.
  destruct (fold_left (place_step spos ypos flags sa) (runorder runs runstart spos) (runs, l, xpos, 0))
    as [[[runs' l'] x] n]. simpl in *. exact H.
Qed.

Lemma skip_spaces_ge : forall runs k r, (r <= skip_spaces runs k r)%nat.
Proof.
  intros runs k. induction k as [|k IH]; intros r; simpl; [lia|].
  destruct (Nat.ltb r (length runs) && space (run_at runs r)); [specialize (IH (S r)); lia | lia].
Qed.

(** With enough fuel the line loop ends; the line's end never moves
    back, and from an empty line it moves forward. *)
Lemma line_loop_ends : forall runs shape ypos runstart fuel cur,
  (length runs - la_spos cur <= fuel)%nat ->
  exists c f, line_loop runs shape ypos runstart fuel cur = Some (c, f)
              /\ (la_spos cur <= la_spos c)%nat
              /\ (la_spos cur = runstart -> (la_spos cur < length runs)%nat ->
                  (runstart < la_spos c)%nat).
Proof.
  intros runs shape ypos runstart fuel. induction fuel as [|fuel IH]; intros cur Hf.
  - exists cur, false. simpl.
    replace (Nat.ltb (la_spos cur) (length runs)) with false by (symmetry; apply Nat.ltb_ge; lia).
    repeat split; intros; lia.
  - simpl. destruct (Nat.ltb_spec (la_spos cur) (length runs)) as [Hlt|Hge].
    + destruct (line_step runs shape ypos runstart cur) as [|c [|]] eqn:E.
      * exists cur, false. repeat split; [lia|]. intros Hs _.
        destruct (line_step_empty_commits runs shape ypos runstart cur Hs) as (c & f & E').
        congruence.
      * pose proof (line_step_commit_spos _ _ _ _ _ _ _ E) as Hc.
        pose proof (candidate_group_advances runs cur).
        exists c, true. repeat split; [lia|]. intros; lia.
      * pose proof (line_step_commit_spos _ _ _ _ _ _ _ E) as Hc.
        pose proof (candidate_group_advances runs cur).
        destruct (IH c) as (c' & f' & E' & H1 & _); [lia|].
        exists c', f'. repeat split; [exact E' | lia |]. intros; lia.
    + exists cur, false. repeat split; [lia|]. intros; lia.
Qed.

(** Each iteration of the outer loop of [breakLines] moves [runstart]
    strictly forward and keeps the number of runs. *)
Lemma bl_iter_progress : forall shape prop st,
  (b_runstart st < length (b_runs st))%nat ->
  exists st', bl_iter shape prop st = Some st'
              /\ (b_runstart st < b_runstart st')%nat
              /\ length (b_runs st') = length (b_runs st).
Proof.
  intros shape prop st Hlt. unfold bl_iter.
  set (runs := b_runs st) in *.
  set (r1 := skip_spaces runs (length runs) (b_runstart st)).
  pose proof (skip_spaces_ge runs (length runs) (b_runstart st)) as Hr1. fold r1 in Hr1.
  set (w0 := if b_firstline st && negb (match align prop with ALG_CENTER => true | _ => false end)
             then indent prop else 0).
  destruct (line_loop_ends runs shape (b_ypos st) r1 (length runs)
              {| la_asc := 0; la_desc := 0; la_width := w0; la_spos := r1; la_space := 0 |})
    as (c & f & E & H1 & H2); [simpl; lia|].
  simpl in H1, H2. rewrite E.
  match goal with
  | |- context [addLine ?a ?b ?c ?d ?e ?f ?g ?h ?i ?j ?k] =>
      pose proof (addLine_length a b c d e f g h i j k) as HL;
      destruct (addLine a b c d e f g h i j k) as [runs' l'] eqn:EA
  end.
  eexists. split; [reflexivity|]. simpl. split.
  - destruct (Nat.eq_dec r1 (b_runstart st)) as [Heq|Hne].
    + destruct (Nat.ltb_spec r1 (length runs)); [|lia]. specialize (H2 eq_refl). lia.
    + lia.
  - simpl in HL. exact HL.
Qed.

Lemma bl_loop_ends : forall shape prop fuel st,
  (length (b_runs st) - b_runstart st <= fuel)%nat ->
  exists st', bl_loop shape prop fuel st = Some st' /\ (length (b_runs st') <= b_runstart st')%nat.
Proof.
  intros shape prop fuel. induction fuel as [|fuel IH]; intros st Hf.
  - exists st. simpl.
    replace (Nat.ltb (b_runstart st) (length (b_runs st))) with false by (symmetry; apply Nat.ltb_ge; lia).
    split; [reflexivity | lia].
  - simpl. destruct (Nat.ltb_spec (b_runstart st) (length (b_runs st))) as [Hlt|Hge].
    + destruct (bl_iter_progress shape prop st Hlt) as (st' & E & Hp & Hl).
      rewrite E. apply IH. lia.
    + exists st. split; [reflexivity | lia].
Qed.

(** C9: the greedy line breaker terminates on every run list: each
    iteration of its outer loop moves the first unplaced run strictly
    forward (it skips leading spaces or commits a run), so the loop leaves after at most [length runs] iterations with every run
    placed, so [breakLines] never hits the model's iteration bound. *)
Theorem breakLines_terminates : forall shape prop runs ystart,
  (forall st, (b_runstart st < length (b_runs st))%nat ->
     exists st', bl_iter shape prop st = Some st' /\ (b_runstart st < b_runstart st')%nat)
  /\ (exists st, bl_loop shape prop (length runs) (bl_init runs ystart) = Some st
              /\ (length runs <= b_runstart st)%nat)
  /\ breakLines runs shape prop ystart <> inl LoopBound.
Proof.
  intros shape prop runs ystart.
  destruct (bl_loop_ends shape prop (length runs) (bl_init runs ystart)) as (st & E & H);
    [simpl; lia|].
  split; [|split].
  - intros s Hs. destruct (bl_iter_progress shape prop s Hs) as (s' & E' & Hp & _).
    exists s'. split; assumption.
  - exists st. split; [exact E|].
    assert (Hl : length (b_runs st) = length runs).
    { clear H. revert E. generalize (length runs) at 1 as fuel. intros fuel.
      assert (Inv : length (b_runs (bl_init runs ystart)) = length runs) by reflexivity.
      revert Inv. generalize (bl_init runs ystart) as s.
      induction fuel as [|fuel IH]; intros s Inv E; simpl in E.
      - destruct (Nat.ltb (b_runstart s) (length (b_runs s))); [discriminate|]. congruence.
      - destruct (Nat.ltb_spec (b_runstart s) (length (b_runs s))) as [Hlt|Hge].
        + destruct (bl_iter_progress shape prop s Hlt) as (s' & E' & _ & Hl').
          rewrite E' in E. apply (IH s'); [congruence | exact E].
        + congruence. }
    lia.
  - unfold breakLines. rewrite E. discriminate.
Qed.

(** ** Line assembly: alignment *)

(** C5: [addLine] starts the line at [xpos] and widens each space by
    [spaceadder] as the alignment table says, with
    [spaceLeft = right - left - curWidth] and [numSpace] a count:
    LEFT: [left] (+ indent on the first line), no widening; RIGHT:
    [left + spaceLeft]; CENTER: [left + spaceLeft/2]; JUSTIFY_LEFT:
    [left] (+ indent on the first line) and [spaceLeft/numSpace] except on
    the last line or with no spaces, where it is 0; JUSTIFY_RIGHT: on the
    last line or with no spaces [left + spaceLeft] and no widening,
    otherwise [left] and [spaceLeft/numSpace]. *)
Theorem addLine_alignment_table : forall prop lineflags left right curWidth (n : nat),
  let numSpace := Z.of_nat n in
  let spaceLeft := right - left - curWidth in
  let first := has_flag lineflags LF_FIRST in
  let last := has_flag lineflags LF_LAST in
  let ind := if first then indent prop else 0 in
  let no_justify := last || Nat.eqb n 0 in
  align_line prop lineflags left right curWidth numSpace =
  match align prop with
  | ALG_LEFT => (left + ind, 0%Q)
  | ALG_RIGHT => (left + spaceLeft, 0%Q)
  | ALG_CENTER => (left + Z.quot spaceLeft 2, 0%Q)
  | ALG_JUSTIFY_LEFT =>
      (left + ind, if no_justify then 0%Q else (inject_Z spaceLeft / inject_Z numSpace)%Q)
  | ALG_JUSTIFY_RIGHT =>
      if no_justify then (left + spaceLeft, 0%Q)
      else (left, (inject_Z spaceLeft / inject_Z numSpace)%Q)
  end.
Proof.
  intros prop lineflags left right curWidth n numSpace spaceLeft first last ind no_justify.
  assert (Hj : (Z.ltb 0 numSpace && negb last) = negb no_justify).
  { unfold no_justify, numSpace. destruct n; simpl; destruct last; reflexivity. }
  unfold align_line. fold spaceLeft first last. rewrite Hj.
  destruct (align prop); try reflexivity; destruct no_justify; reflexivity.
Qed.

(** ** Optimizing breaker: the last line of a sub-paragraph *)

(** C6: for a candidate line [start-1 .. i) of the optimizing breaker that
    ends at a MUSTBREAK run or at the end of the runs, and that fits the
    column, the demerits from badness and line type are replaced by 0 when
    the line's width exceeds a third of the column width
    ([right - left]) at the line's vertical position, and by 100000
    otherwise; the break is marked forced. *)
Theorem optimizer_final_line_demerits : forall runs shape prop li i st,
  lb_eqb (linebreak (run_at runs (i - 1))) LINEBREAK_MUSTBREAK = true \/ i = length runs ->
  match opt_candidate runs shape prop li i st with
  | Some c =>
      let y := li_ypos (li_at li (st - 1)) in
      let m := c_acc c in
      c_force c = true
      /\ c_demerits c = (if Z.ltb (Z.quot (c_right c - c_left c) 3) (o_width m)
                         then xz 0 else xz 100000)
      /\ c_left c = getLeft shape y (y + o_asc m - o_desc m)
      /\ c_right c = getRight shape y (y + o_asc m - o_desc m)
  | None => True
  end.
Proof.
  intros runs shape prop li i st Hfin. unfold opt_candidate.
  set (m := opt_measure _ _ _ _).
  destruct (Z.ltb _ _); [exact I|].
  assert (Hf : (lb_eqb (linebreak (run_at runs (i - 1))) LINEBREAK_MUSTBREAK
                || Nat.eqb i (length runs)) = true).
  { destruct Hfin as [H|H]; [rewrite H; reflexivity|].
    rewrite H, Nat.eqb_refl. apply Bool.orb_true_r. }
  rewrite Hf. simpl. repeat split; reflexivity.
Qed.

(** ** Line assembly: layer order *)

Lemma SS_app : forall {A} (R : A -> A -> Prop) l1 l2,
  StronglySorted R l1 -> StronglySorted R l2 ->
  (forall x y, In x l1 -> In y l2 -> R x y) -> StronglySorted R (l1 ++ l2).
Proof.
  intros A R l1. induction l1 as [|h t IH]; intros l2 H1 H2 H12; simpl; [exact H2|].
  inversion H1 as [|? ? Ht Hf]; subst. constructor.
  - apply IH; auto. intros x y Hx Hy. apply H12; simpl; auto.
  - apply Forall_app. split; [exact Hf|]. apply Forall_forall. intros y Hy. apply H12; simpl; auto.
Qed.

Definition layer_desc (x y : nat * CommandData) : Prop := (fst y <= fst x)%nat.

Lemma SS_same_layer : forall (l : list (nat * CommandData)) lay,
  (forall x, In x l -> fst x = lay) -> StronglySorted layer_desc l.
Proof.
  induction l as [|h t IH]; intros lay H; constructor.
  - apply (IH lay). intros x Hx. apply H. simpl; auto.
  - apply Forall_forall. intros y Hy. unfold layer_desc.
    rewrite (H h (or_introl eq_refl)), (H y (or_intror Hy)). lia.
Qed.

Lemma emit_layer_layer : forall runs runstart spos lay x,
  In x (emit_layer runs runstart spos lay) -> fst x = lay.
Proof.
  intros runs runstart spos lay [ly c] Hx. unfold emit_layer in Hx.
  apply in_flat_map in Hx. destruct Hx as (i & _ & Hx).
  destruct (negb (shy (run_at runs i)) || Nat.eqb i (spos - 1)); [|destruct Hx].
  unfold emit_run in Hx. apply filter_In in Hx. destruct Hx as [_ Hx].
  apply andb_true_iff in Hx. destruct Hx as [Hx _]. apply Nat.eqb_eq in Hx. exact Hx.
Qed.

Lemma emit_blocks_sorted : forall runs runstart spos m n s,
  StronglySorted layer_desc
    (flat_map (fun layer => emit_layer runs runstart spos (m - layer - 1)) (seq s n)).
Proof.
  intros runs runstart spos m n. induction n as [|n IH]; intros s; simpl; [constructor|].
  apply SS_app.
  - apply (SS_same_layer _ (m - s - 1)). apply emit_layer_layer.
  - apply IH.
  - intros x y Hx Hy. apply emit_layer_layer in Hx. apply in_flat_map in Hy.
    destruct Hy as (layer & Hl & Hy). apply emit_layer_layer in Hy. apply in_seq in Hl.
    unfold layer_desc. lia.
Qed.

Lemma SS_nth : forall {A} (R : A -> A -> Prop) l d i j,
  StronglySorted R l -> (i < j < length l)%nat -> R (nth i l d) (nth j l d).
Proof.
  intros A R l d. induction l as [|h t IH]; intros i j H Hij; simpl in Hij; [lia|].
  inversion H as [|? ? Ht Hf]; subst.
  destruct i as [|i], j as [|j]; simpl; try lia.
  - rewrite Forall_forall in Hf. apply Hf. apply nth_In. lia.
  - apply IH; auto. lia.
Qed.

Lemma mergeLinks_commands : forall l lks a b, commands (mergeLinks l lks a b) = commands l.
Proof. reflexivity. Qed.

Lemma place_steps_commands : forall spos ypos flags sa order st,
  commands (snd (fst (fst (fold_left (place_step spos ypos flags sa) order st))))
  = commands (snd (fst (fst st))).
Proof.
  intros spos ypos flags sa order. induction order as [|ri o IH]; intros st; simpl; [reflexivity|].
  rewrite IH. destruct st as [[[runs l] x] n]. unfold place_step.
  destruct (negb (shy (run_at runs ri)) || Nat.eqb ri (spos - 1)); reflexivity.
Qed.

Lemma addUnderline_layers : forall gx gw prop a,
  addUnderline gx gw prop a = []
  \/ exists sh b, addUnderline gx gw prop a = sh ++ [(0%nat, b)]
                  /\ Forall (fun x => (1 <= fst x)%nat) sh.
Proof.
  intros gx gw prop a. unfold addUnderline. destruct (a_underline a); [right|left; reflexivity].
  eexists; eexists. split; [reflexivity|].
  apply Forall_forall. intros x Hx. apply in_map_iff in Hx. destruct Hx as (j & <- & Hj).
  apply in_seq in Hj. simpl. lia.
Qed.

(** ** Run creation: the NonLinearScript error *)

Lemma first_pass_fold_xoff : forall v prop asc desc gs st,
  length (p_xoff (fold_left (first_pass_step v prop asc desc) gs st))
  = (length (p_xoff st) + length gs)%nat.
Proof.
  induction gs as [|g gs IH]; intros st; simpl; [lia|].
  rewrite IH. unfold first_pass_step.
  destruct (a_inlay _); simpl; [rewrite length_app; simpl; lia|].
  repeat match goal with |- context [if ?b then _ else _] => destruct b end;
    simpl; rewrite length_app; simpl; lia.
Qed.

Lemma first_pass_xoff_length : forall v prop asc desc gs,
  length (p_xoff (first_pass v prop asc desc gs)) = length gs.
Proof. intros. unfold first_pass. rewrite first_pass_fold_xoff. reflexivity. Qed.

Lemma Exists_combine_fst {A B} (P : A -> Prop) : forall (l : list A) (xs : list B),
  length xs = length l -> (Exists (fun p => P (fst p)) (combine l xs) <-> Exists P l).
Proof.
  induction l as [|x l IH]; intros [|y xs] H; simpl in *; try discriminate;
    split; intros Hx; try solve [inversion Hx].
  - inversion Hx; subst; [now constructor|]. apply Exists_cons_tl. apply (IH xs); [lia|assumption].
  - inversion Hx; subst; [now constructor|]. apply Exists_cons_tl. apply (IH xs); [lia|assumption].
Qed.

Lemma Exists_rev_iff {A} (P : A -> Prop) (l : list A) : Exists P (rev l) <-> Exists P l.
Proof.
  rewrite !Exists_exists. split; intros (x & Hx & Hp); exists x; split; auto.
  - apply in_rev; assumption.
  - apply (proj1 (in_rev l x)); assumption.
Qed.

Lemma second_pass_error : forall v prop runstart font asc rdy gs cmds rdx,
  (forall e, second_pass v prop runstart font asc rdy gs cmds rdx = inl e -> e = NonLinearScript)
  /\ ((exists e, second_pass v prop runstart font asc rdy gs cmds rdx = inl e)
      <-> Exists (fun p => a_inlay (att v (g_cluster (fst p))) = None /\ y_advance (fst p) <> 0) gs).
Proof.
  intros v prop runstart font asc rdy gs. induction gs as [|[g gx] gs IH]; intros cmds rdx; simpl.
  - split; [discriminate|]. split; [intros [e He]; discriminate | intros H; inversion H].
  - destruct (a_inlay (att v (g_cluster g))) as [i|] eqn:Ei.
    + destruct (IH (cmds ++ inlay_cmds prop asc rdx i (att v (g_cluster g))) (rdx + inlay_right i))
        as [IH1 IH2].
      split; [exact IH1|]. rewrite IH2. split; intros H.
      * apply Exists_cons_tl; assumption.
      * inversion H as [? ? [Hn _]|]; subst; [simpl in Hn; congruence|assumption].
    + destruct (Z.eqb_spec (y_advance g) 0) as [Hy|Hy]; simpl.
      * destruct (IH (cmds ++ glyph_cmds v prop runstart font rdy (att v (g_cluster g)) g gx) rdx)
          as [IH1 IH2].
        split; [exact IH1|]. rewrite IH2. split; intros H.
        -- apply Exists_cons_tl; assumption.
        -- inversion H as [? ? [_ Hn]|]; subst; [simpl in Hn; congruence|assumption].
      * split; [intros e He; congruence|]. split; intros _; [|eexists; reflexivity].
        apply Exists_cons_hd. simpl. split; assumption.
Qed.

Lemma createRun_error : forall env v spos runstart prop font,
  (forall e, createRun env v spos runstart prop font = inl e -> e = NonLinearScript)
  /\ ((exists e, createRun env v spos runstart prop font = inl e)
      <-> Exists (fun g => a_inlay (att v (g_cluster g)) = None /\ y_advance g <> 0)
                 (run_glyphs env v spos runstart font)).
Proof.
  intros env v spos runstart prop font. unfold createRun.
  set (glyphs := run_glyphs env v spos runstart font).
  destruct (match a_inlay (att v runstart) with
            | Some i => _ | None => _ end) as [asc desc].
  set (p1 := first_pass v prop asc desc glyphs).
  set (gs := combine glyphs (p_xoff p1)).
  assert (Hg : Exists (fun p => a_inlay (att v (g_cluster (fst p))) = None /\ y_advance (fst p) <> 0)
                 (if negb (Z.even (emb v runstart)) then rev gs else gs)
               <-> Exists (fun g => a_inlay (att v (g_cluster g)) = None /\ y_advance g <> 0) glyphs).
  { assert (Hc : Exists (fun p => a_inlay (att v (g_cluster (fst p))) = None /\ y_advance (fst p) <> 0) gs
                 <-> Exists (fun g => a_inlay (att v (g_cluster g)) = None /\ y_advance g <> 0) glyphs).
    { apply (Exists_combine_fst (fun g => a_inlay (att v (g_cluster g)) = None /\ y_advance g <> 0)).
      apply first_pass_xoff_length. }
    destruct (negb _); [rewrite Exists_rev_iff|]; exact Hc. }
  destruct (second_pass_error v prop runstart font asc 0
              (if negb (Z.even (emb v runstart)) then rev gs else gs) [] (p_dx p1)) as [H1 H2].
  destruct (second_pass _ _ _ _ _ _ _ _ _) as [e|[cmds rdx]] eqn:E; simpl.
  - split; [intros e' He'; injection He' as <-; apply H1; reflexivity|].
    rewrite <- Hg, <- H2. split; intros _; eexists; reflexivity.
  - split; [discriminate|]. rewrite <- Hg, <- H2. split; intros [e' He']; discriminate.
Qed.

(** C4 (as the code behaves): [createRun] fails, and fails only with
    NonLinearScript, exactly when the shaper reports for the run a glyph
    with non-zero y_advance whose cluster is not an inline object; the
    glyphs of inline-object clusters are never checked.  The run loop of
    [createTextRuns] returns the error of every run it creates: the run at
    [runstart], the soft-hyphen run it adds after a hyphenation point, and
    the runs of its later iterations; and [layoutParagraph] returns the
    error of [createTextRuns]. *)
Theorem createRun_nonlinear_outside_inlays : forall env prop,
  (forall v spos runstart font,
     (forall e, createRun env v spos runstart prop font = inl e -> e = NonLinearScript)
     /\ ((exists e, createRun env v spos runstart prop font = inl e)
         <-> Exists (fun g => a_inlay (att v (g_cluster g)) = None /\ y_advance g <> 0)
                    (run_glyphs env v spos runstart font)))
  /\ (forall v k runstart acc e,
        (runstart < vsize v)%nat ->
        let font := fs_get (a_font (att v runstart)) (vtxt v runstart) in
        let spos := run_end v runstart font (vsize v) (S runstart) in
        (createRun env v spos runstart prop font = inl e ->
         runs_loop env v prop (S k) runstart acc = inl e)
        /\ (forall r, createRun env v spos runstart prop font = inr r -> hyp v spos = true ->
             createRun env (shyView v runstart) 1 0 prop font = inl e ->
             runs_loop env v prop (S k) runstart acc = inl e)
        /\ (forall r extra, createRun env v spos runstart prop font = inr r ->
             (hyp v spos = false /\ extra = []
              \/ exists r2, hyp v spos = true
                            /\ createRun env (shyView v runstart) 1 0 prop font = inr r2
                            /\ extra = [r2]) ->
             runs_loop env v prop k spos (acc ++ [r] ++ extra) = inl e ->
             runs_loop env v prop (S k) runstart acc = inl e))
  /\ (forall txt a shape ystart levels e,
        fribidi_levels env txt (ltr prop) = Some levels ->
        createTextRuns env (let v1 := getLinebreaks env (mkView txt a levels) in
                            if hyphenate prop then getHyphens env v1 else v1) prop = inl e ->
        layoutParagraph env txt a shape prop ystart = inl e).
Proof.
  intros env prop. split; [|split].
  - intros v spos runstart font. apply createRun_error.
  - intros v k runstart acc e Hlt font spos. simpl.
    apply Nat.ltb_lt in Hlt. rewrite Hlt. fold font. fold spos.
    split; [|split].
    + intros He. rewrite He. reflexivity.
    + intros r Hr Hh He. rewrite Hr. simpl. rewrite Hh. simpl. rewrite He. reflexivity.
    + intros r extra Hr Hx He. rewrite Hr. simpl.
      destruct Hx as [[Hh ->]|(r2 & Hh & H2 & ->)]; rewrite Hh; simpl; [exact He|].
      rewrite H2. simpl. exact He.
  - intros txt a shape ystart levels e Hb He. unfold layoutParagraph. rewrite Hb.
    simpl in He. rewrite He. reflexivity.
Qed.

(** C4, as the spec states it, does not hold: the text "A" whose one position is an
    inline object, shaped with a vertical advance of 1, is laid out without
    error. *)
Lemma createRun_inlay_vertical_advance_accepted :
  Exists (fun g => y_advance g <> 0)
         (run_glyphs (ex_env_advancing 1) (mkView [0x41] ex_inlay_index [0]) 1 0 (Some ex_font))
  /\ exists L, layoutParagraph (ex_env_advancing 1) [0x41] ex_inlay_index (ex_shape 6400)
                               (ex_prop false) 0 = inr L.
Proof.
  split.
  - vm_compute. apply Exists_cons_hd. discriminate.
  - eexists. vm_compute. reflexivity.
Qed.

(** The same text as plain characters fails with NonLinearScript. *)
Lemma createRun_nonlinear_outside_inlays_witness :
  exists e, createRun (ex_env_advancing 1) (mkView [0x41] ex_text_index [0]) 1 0 (ex_prop false)
              (Some ex_font) = inl e /\ e = NonLinearScript.
Proof.
  destruct (proj1 (createRun_nonlinear_outside_inlays (ex_env_advancing 1) (ex_prop false))
              (mkView [0x41] ex_text_index [0]) 1%nat 0%nat (Some ex_font)) as [H1 H2].
  destruct (proj2 H2) as [e He].
  - vm_compute. apply Exists_cons_hd. split; [reflexivity|discriminate].
  - exists e. split; [exact He|apply H1; exact He].
Defined.

(** C6 at a line of width 3000 ending in a MUSTBREAK in a column of width
    6400: forced, with demerits 0. *)
Lemma optimizer_final_line_demerits_witness :
  (lb_eqb (linebreak (run_at [ex_run 3000 LINEBREAK_MUSTBREAK] (1 - 1))) LINEBREAK_MUSTBREAK = true
   \/ 1%nat = length [ex_run 3000 LINEBREAK_MUSTBREAK])
  /\ exists c, opt_candidate [ex_run 3000 LINEBREAK_MUSTBREAK] (ex_shape 6400) (ex_prop true)
                             [li_zero; li_zero] 1 1 = Some c
               /\ c_force c = true /\ c_demerits c = xz 0.
Proof.
  assert (Hh : lb_eqb (linebreak (run_at [ex_run 3000 LINEBREAK_MUSTBREAK] (1 - 1))) LINEBREAK_MUSTBREAK = true
               \/ 1%nat = length [ex_run 3000 LINEBREAK_MUSTBREAK]) by (left; reflexivity).
  split; [exact Hh|].
  pose proof (optimizer_final_line_demerits [ex_run 3000 LINEBREAK_MUSTBREAK] (ex_shape 6400)
                (ex_prop true) [li_zero; li_zero] 1 1 Hh) as H.
  destruct (opt_candidate [ex_run 3000 LINEBREAK_MUSTBREAK] (ex_shape 6400) (ex_prop true)
              [li_zero; li_zero] 1 1) as [c|] eqn:E.
  - exists c. destruct H as (Hf & Hd & HL & HR). split; [reflexivity|]. split; [exact Hf|].
    rewrite Hd. vm_compute in E. injection E as <-. vm_compute. reflexivity.
  - vm_compute in E. discriminate.
Defined.

(** ** Paragraphs without visible text *)

Lemma view_copy_all_bidi : forall t i,
  Forall (fun c => isBidiCharacter c = true) t -> view_copy t i = ([], []).
Proof.
  induction t as [|c t IH]; intros i H; simpl; [reflexivity|].
  inversion H as [|? ? Hc Ht]; subst. rewrite (IH (S i) Ht), Hc. reflexivity.
Qed.

(** C10: when the text is empty or made only of the stripped bidi
    controls U+202A, U+202B, U+202C, and the bidi resolver succeeds,
    [layoutParagraph] succeeds with a layout of no commands and no links
    whose height is [ystart], with the greedy and with the optimizing
    breaker alike. *)
Theorem layoutParagraph_no_visible_text : forall env txt a shape prop ystart levels,
  Forall (fun c => isBidiCharacter c = true) txt ->
  fribidi_levels env txt (ltr prop) = Some levels ->
  exists L, layoutParagraph env txt a shape prop ystart = inr L
            /\ commands L = [] /\ tl_links L = [] /\ height L = ystart.
Proof.
  intros env txt a shape prop ystart levels Hall Hb.
  unfold layoutParagraph. rewrite Hb. unfold mkView. rewrite (view_copy_all_bidi txt 0 Hall).
  destruct (hyphenate prop); destruct (optimizeLinebreaks prop); simpl;
    eexists; (split; [reflexivity|]); simpl; auto.
Qed.

Lemma layoutParagraph_no_visible_text_witness :
  Forall (fun c => isBidiCharacter c = true) [0x202A; 0x202C]
  /\ fribidi_levels ex_env [0x202A; 0x202C] (ltr (ex_prop true)) = Some [0; 0]
  /\ exists L, layoutParagraph ex_env [0x202A; 0x202C] ex_text_index (ex_shape 6400) (ex_prop true) 5
                 = inr L /\ commands L = [] /\ tl_links L = [] /\ height L = 5.
Proof.
  assert (H1 : Forall (fun c => isBidiCharacter c = true) [0x202A; 0x202C])
    by (repeat constructor).
  assert (H2 : fribidi_levels ex_env [0x202A; 0x202C] (ltr (ex_prop true)) = Some [0; 0])
    by reflexivity.
  split; [exact H1|]. split; [exact H2|].
  exact (layoutParagraph_no_visible_text ex_env [0x202A; 0x202C] ex_text_index (ex_shape 6400)
           (ex_prop true) 5 [0; 0] H1 H2).
Defined.

(** ** The view's hyphenation marks *)

Lemma nth_set_nth : forall {A} (l : list A) i j x d,
  nth j (set_nth l i x) d = if Nat.eqb j i && Nat.ltb i (length l) then x else nth j l d.
Proof.
  induction l as [|h t IH]; intros i j x d; simpl.
  - replace (Nat.ltb i 0) with false by (destruct i; reflexivity).
    rewrite Bool.andb_false_r. destruct j; reflexivity.
  - destruct i as [|i'], j as [|j']; simpl; try reflexivity. rewrite IH. reflexivity.
Qed.

Lemma resize_longer : forall {A} n (d : A) l, (length l <= n)%nat ->
  resize n d l = l ++ repeat d (n - length l).
Proof. intros. unfold resize. rewrite firstn_all2 by lia. reflexivity. Qed.

Lemma nth_pad : forall {A} (l : list A) k d j, nth j (l ++ repeat d k) d = nth j l d.
Proof.
  intros. destruct (Nat.lt_ge_cases j (length l)).
  - apply app_nth1; assumption.
  - rewrite app_nth2 by assumption. rewrite nth_repeat, nth_overflow by assumption. reflexivity.
Qed.

Lemma sethyp_hyphens_length : forall v i, (length (hyphens v) <= length (idx v))%nat ->
  length (hyphens (sethyp v i)) = length (idx v).
Proof.
  intros v i H. unfold sethyp, with_hyphens. simpl. rewrite set_nth_length, resize_longer by assumption.
  rewrite length_app, repeat_length. lia.
Qed.

(** X1: [sethyp(i)] followed by [hyp(j)]: position [i] is marked and every
    other position keeps its mark, for [i] inside the view and a marks
    vector no longer than the view (as every view keeps it). *)
Theorem sethyp_hyp : forall v i j,
  (i < length (idx v))%nat -> (length (hyphens v) <= length (idx v))%nat ->
  hyp (sethyp v i) j = (Nat.eqb j i || hyp v j)
  /\ length (hyphens (sethyp v i)) = length (idx v).
Proof.
  intros v i j Hi Hl. split; [|apply sethyp_hyphens_length; assumption].
  unfold hyp. rewrite sethyp_hyphens_length by assumption.
  unfold sethyp, with_hyphens. simpl. rewrite nth_set_nth, resize_longer by assumption.
  rewrite length_app, repeat_length, nth_pad.
  replace (length (hyphens v) + (length (idx v) - length (hyphens v)))%nat with (length (idx v)) by lia.
  destruct (Nat.eqb_spec j i) as [->|Hne]; simpl.
  - apply Nat.ltb_lt in Hi. rewrite Hi. reflexivity.
  - destruct (Nat.ltb_spec j (length (idx v))), (Nat.ltb_spec j (length (hyphens v))); simpl;
      try reflexivity; try lia.
    rewrite nth_overflow by lia. reflexivity.
Qed.

Lemma sethyp_hyp_witness :
  (1 < length (idx ex_view_ab))%nat
  /\ (length (hyphens ex_view_ab)
      <= length (idx ex_view_ab))%nat
  /\ hyp (sethyp ex_view_ab 1) 1 = true.
Proof.
  assert (H1 : (1 < length (idx ex_view_ab))%nat)
    by (vm_compute; lia).
  assert (H2 : (length (hyphens ex_view_ab)
                <= length (idx ex_view_ab))%nat)
    by (vm_compute; lia).
  split; [exact H1|]. split; [exact H2|].
  rewrite (proj1 (sethyp_hyp _ 1 1 H1 H2)). reflexivity.
Defined.

(** ** Hyphenation analysis keeps the view *)

Lemma hyp_sethyp_any : forall v i j, (length (hyphens v) <= length (idx v))%nat ->
  hyp (sethyp v i) j = ((Nat.eqb j i && Nat.ltb i (length (idx v))) || hyp v j).
Proof.
  intros v i j Hl. unfold hyp. rewrite sethyp_hyphens_length by assumption.
  unfold sethyp, with_hyphens. simpl. rewrite nth_set_nth, resize_longer by assumption.
  rewrite length_app, repeat_length, nth_pad.
  replace (length (hyphens v) + (length (idx v) - length (hyphens v)))%nat with (length (idx v)) by lia.
  destruct (Nat.eqb_spec j i) as [->|Hne]; simpl.
  - destruct (Nat.ltb_spec i (length (idx v))); simpl; [reflexivity|].
    destruct (Nat.ltb_spec i (length (hyphens v))); [lia|reflexivity].
  - destruct (Nat.ltb_spec j (length (idx v))), (Nat.ltb_spec j (length (hyphens v))); simpl;
      try reflexivity; try lia.
    rewrite nth_overflow by lia. reflexivity.
Qed.

Lemma hyph_ext_refl : forall v, (length (hyphens v) <= length (idx v))%nat -> hyph_ext v v.
Proof. intros v H. repeat split; auto. Qed.

Lemma hyph_ext_trans : forall v1 v2 v3, hyph_ext v1 v2 -> hyph_ext v2 v3 -> hyph_ext v1 v3.
Proof.
  intros v1 v2 v3 (A1 & B1 & C1 & D1 & E1 & F1 & G1 & H1) (A2 & B2 & C2 & D2 & E2 & F2 & G2 & H2).
  repeat split; try congruence; auto.
Qed.

Lemma hyph_ext_len : forall v v', hyph_ext v v' -> (length (hyphens v') <= length (idx v'))%nat.
Proof. intros v v' H. apply H. Qed.

Lemma hyph_ext_sethyp : forall v i, (1 <= i)%nat -> (length (hyphens v) <= length (idx v))%nat ->
  hyph_ext v (sethyp v i).
Proof.
  intros v i Hi Hl. unfold hyph_ext.
  split; [reflexivity|]. split; [reflexivity|]. split; [reflexivity|].
  split; [reflexivity|]. split; [reflexivity|]. split.
  - rewrite sethyp_hyphens_length by assumption. reflexivity.
  - split.
  + intros p Hp. rewrite hyp_sethyp_any, Hp by assumption. apply Bool.orb_true_r.
  + rewrite hyp_sethyp_any by assumption. destruct i; [lia|reflexivity].
Qed.

Lemma mark_hyphens_ext : forall v hs ss ws j, (length (hyphens v) <= length (idx v))%nat ->
  hyph_ext v (mark_hyphens v hs ss ws j).
Proof.
  intros v hs ss ws j. unfold mark_hyphens. generalize (seq 0 (j - ws + 1)). intros ls.
  revert v. induction ls as [|l ls IH]; intros v Hl; simpl; [apply hyph_ext_refl; assumption|].
  destruct (hyph_at hs l) as [cnt replen].
  destruct (negb (Z.rem cnt 2 =? 0) && Nat.eqb replen 0).
  - assert (H1 := hyph_ext_sethyp v (ss + ws + l + 1) ltac:(lia) Hl).
    eapply hyph_ext_trans; [exact H1|]. apply IH. eapply hyph_ext_len; exact H1.
  - apply IH; assumption.
Qed.

Lemma word_loop_ext : forall dict breaks ss k j ws v tr,
  (length (hyphens v) <= length (idx v))%nat ->
  hyph_ext v (fst (word_loop dict breaks ss k j ws v tr)).
Proof.
  intros dict breaks ss k. induction k as [|k IH]; intros j ws v tr Hl; simpl;
    [apply hyph_ext_refl; assumption|].
  destruct (wb_is_break _); [|apply IH; assumption].
  destruct (no_shy_before v ws j).
  - assert (H1 := mark_hyphens_ext v (dict (substr (txt32 v) ws (j - ws))) ss ws j Hl).
    eapply hyph_ext_trans; [exact H1|]. apply IH. eapply hyph_ext_len; exact H1.
  - apply IH; assumption.
Qed.

Lemma section_loop_ext : forall env k ss v tr,
  (length (hyphens v) <= length (idx v))%nat ->
  hyph_ext v (fst (section_loop env k ss v tr)).
Proof.
  intros env k. induction k as [|k IH]; intros ss v tr Hl; simpl; [apply hyph_ext_refl; assumption|].
  destruct (Nat.ltb ss (vsize v)); [|apply hyph_ext_refl; assumption].
  destruct (hasatt v ss && negb (String.eqb (a_lang (att v ss)) "")); [|apply IH; assumption].
  destruct (getHyphenDict env (a_lang (att v 0))) as [dict|]; [|apply IH; assumption].
  match goal with |- context [word_loop ?d ?b ?s ?k0 ?j ?w v ?t] =>
    assert (H1 := word_loop_ext d b s k0 j w v t Hl);
    destruct (word_loop d b s k0 j w v t) as [v' tr2] eqn:E end.
  simpl in H1. eapply hyph_ext_trans; [exact H1|]. apply IH. eapply hyph_ext_len; exact H1.
Qed.

(** X2: the hyphenation analysis only adds hyphenation marks: it leaves the
    text, the index map, the attributes, the embedding levels and the line
    breaks as they are, keeps every mark already set, keeps the marks
    vector no longer than the view, and never marks position 0 (a
    hyphenation point before the paragraph's first character). *)
Theorem getHyphens_only_adds_marks : forall env v,
  (length (hyphens v) <= length (idx v))%nat ->
  let v' := getHyphens env v in
  txt32 v' = txt32 v /\ idx v' = idx v /\ attr v' = attr v
  /\ embeddingLevels v' = embeddingLevels v /\ linebreaks v' = linebreaks v
  /\ (length (hyphens v') <= length (idx v'))%nat
  /\ (forall p, hyp v p = true -> hyp v' p = true)
  /\ hyp v' 0 = hyp v 0.
Proof.
  intros env v Hl. unfold getHyphens, getHyphens_trace. apply section_loop_ext. exact Hl.
Qed.

Lemma getHyphens_only_adds_marks_witness :
  (length (hyphens ex_view_ab) <= length (idx ex_view_ab))%nat
  /\ hyp (getHyphens ex_env ex_view_ab) 0 = false.
Proof.
  assert (H : (length (hyphens ex_view_ab) <= length (idx ex_view_ab))%nat) by (vm_compute; lia).
  split; [exact H|].
  destruct (getHyphens_only_adds_marks ex_env ex_view_ab H) as (_ & _ & _ & _ & _ & _ & _ & H0).
  rewrite H0. reflexivity.
Defined.

(** ** Line-break analysis *)

Lemma write_at_length : forall {A} (vals l : list A) p, length (write_at l p vals) = length l.
Proof.
  induction vals as [|x vs IH]; intros l p; simpl; [reflexivity|].
  rewrite IH, set_nth_length. reflexivity.
Qed.

Lemma set_nth_split : forall {A} (l : list A) p x, (p < length l)%nat ->
  set_nth l p x = firstn p l ++ x :: skipn (S p) l.
Proof.
  induction l as [|h t IH]; intros p x H; simpl in *; [lia|].
  destruct p as [|p]; simpl; [reflexivity|]. rewrite IH by lia. reflexivity.
Qed.

Lemma write_at_spec : forall {A} (vals l : list A) p, (p + length vals <= length l)%nat ->
  write_at l p vals = firstn p l ++ vals ++ skipn (p + length vals) l.
Proof.
  induction vals as [|x vs IH]; intros l p H; simpl in *.
  - rewrite Nat.add_0_r, firstn_skipn. reflexivity.
  - rewrite IH by (rewrite set_nth_length; lia).
    rewrite set_nth_split by lia.
    assert (Hp : length (firstn p l) = p) by (rewrite length_firstn; lia).
    replace (S p) with (length (firstn p l) + 1)%nat by lia.
    rewrite firstn_app_2. simpl.
    rewrite skipn_app, skipn_all2 by lia.
    replace (length (firstn p l) + 1 + length vs - length (firstn p l))%nat
      with (S (length vs)) by lia.
    simpl. rewrite skipn_skipn. rewrite <- app_assoc. simpl. rewrite Hp.
    replace (length vs + (p + 1))%nat with (p + S (length vs))%nat by lia. reflexivity.
Qed.

Lemma linebreak_loop_keeps : forall env k rs v,
  let v' := linebreak_loop env v k rs in
  txt32 v' = txt32 v /\ idx v' = idx v /\ attr v' = attr v
  /\ embeddingLevels v' = embeddingLevels v /\ hyphens v' = hyphens v
  /\ length (linebreaks v') = length (linebreaks v).
Proof.
  intros env k. induction k as [|k IH]; intros rs v; simpl; [repeat split; reflexivity|].
  destruct (Nat.ltb rs (vsize v)); [|repeat split; reflexivity].
  match goal with |- context [linebreak_loop env ?w k ?r] =>
    destruct (IH r w) as (A & B & C & D & E & F) end.
  simpl in *. rewrite A, B, C, D, E, F, write_at_length. repeat split; reflexivity.
Qed.

Lemma lang_run_end_all : forall v rs k p,
  (forall q, (q < vsize v)%nat -> a_lang (att v q) = a_lang (att v rs)) ->
  (p <= vsize v)%nat -> (vsize v - p <= k)%nat ->
  lang_run_end v rs k p = vsize v.
Proof.
  intros v rs k. induction k as [|k IH]; intros p Hall Hp Hk; simpl; [lia|].
  destruct (Nat.ltb_spec p (vsize v)) as [Hlt|Hge]; simpl.
  - rewrite (Hall p Hlt), String.eqb_refl. apply IH; auto; lia.
  - lia.
Qed.

(** X3: [getLinebreaks] only fills in the line-break array: text, index
    map, attributes, levels and hyphenation marks stay, and the array
    keeps its length (one entry per character of the view).  When the
    whole paragraph has one language and the analyzer writes one value
    per character, the array is exactly the analysis of the whole text in
    that language. *)
Theorem getLinebreaks_fills_linebreaks : forall env v,
  let v' := getLinebreaks env v in
  (txt32 v' = txt32 v /\ idx v' = idx v /\ attr v' = attr v
   /\ embeddingLevels v' = embeddingLevels v /\ hyphens v' = hyphens v
   /\ length (linebreaks v') = length (linebreaks v))
  /\ ((forall p, (p < vsize v)%nat -> a_lang (att v p) = a_lang (att v 0)) ->
      length (linebreaks v) = vsize v ->
      length (set_linebreaks_utf32 env (txt32 v) (a_lang (att v 0))) = vsize v ->
      linebreaks v' = set_linebreaks_utf32 env (txt32 v) (a_lang (att v 0))).
Proof.
  intros env v v'. split; [apply linebreak_loop_keeps|].
  intros Hall Hlb Hout. subst v'. unfold getLinebreaks.
  destruct (vsize v) as [|n] eqn:En.
  - simpl. destruct (linebreaks v); [|discriminate].
    destruct (set_linebreaks_utf32 env (txt32 v) (a_lang (att v 0))); [reflexivity|discriminate].
  - cbn -[lang_run_end cslice write_at]. rewrite En. cbn -[lang_run_end cslice write_at].
    rewrite (lang_run_end_all v 0 (S n) 1) by (try rewrite En; auto; lia). rewrite En.
    replace (Nat.leb (S n) n) with false by (symmetry; apply Nat.leb_gt; lia).
    rewrite Nat.sub_0_r, Nat.add_0_r.
    assert (Hc : cslice v 0 (S n) = txt32 v).
    { unfold cslice, substr. cbn [skipn]. rewrite firstn_app. unfold vsize in En.
      rewrite <- En, firstn_all, Nat.sub_diag. apply app_nil_r. }
    rewrite Hc. rewrite firstn_all2 by lia.
    rewrite write_at_spec by (simpl; lia). simpl.
    rewrite skipn_all2 by lia. rewrite app_nil_r.
    destruct n as [|n']; [reflexivity|].
    unfold linebreak_loop. unfold vsize at 1. simpl txt32. unfold vsize in En. rewrite En.
    rewrite Nat.ltb_irrefl. reflexivity.
Qed.

(** ** Underlines *)

(** X4: [addUnderline] outputs nothing for a character without the
    underline flag; with the flag it outputs one rectangle per shadow and
    the underline itself, every one a rectangle of the requested width
    [gw] and of height at least 64 (one pixel in 26.6 units). *)
Theorem addUnderline_rects : forall gx gw prop a,
  (a_underline a = false -> addUnderline gx gw prop a = [])
  /\ (a_underline a = true ->
      length (addUnderline gx gw prop a) = S (length (a_shadows a))
      /\ Forall (fun p => command (snd p) = CMD_RECT /\ cmd_w (snd p) = gw /\ 64 <= cmd_h (snd p))
                (addUnderline gx gw prop a)).
Proof.
  intros gx gw prop a. unfold addUnderline. split; intros H; rewrite H; [reflexivity|].
  split.
  - rewrite length_app, length_map, length_seq. simpl. lia.
  - apply Forall_app. split.
    + apply Forall_forall. intros x Hx. apply in_map_iff in Hx. destruct Hx as (j & <- & _).
      simpl. split; [reflexivity|]. split; [reflexivity|]. lia.
    + constructor; [|constructor]. simpl. split; [reflexivity|]. split; [reflexivity|]. lia.
Qed.

(** ** Links of a layout *)

Lemma add_areas_urls : forall ls u rs x,
  In x (map url (add_areas ls u rs)) <-> In x (map url ls) \/ x = u.
Proof.
  induction ls as [|l t IH]; intros u rs x; simpl.
  - split; [intros [H|[]]; right; congruence | intros [[]|H]; left; congruence].
  - destruct (String.eqb_spec (url l) u) as [E|E]; simpl.
    + split; [intros [H|H]; [left; left; exact H | left; right; exact H]|].
      intros [[H|H]|H]; [left; exact H | right; exact H | left; congruence].
    + rewrite IH. tauto.
Qed.

Lemma add_areas_nodup : forall ls u rs, NoDup (map url ls) -> NoDup (map url (add_areas ls u rs)).
Proof.
  induction ls as [|l t IH]; intros u rs H; simpl; [constructor; [intros []|constructor]|].
  inversion H as [|? ? Hn Ht]; subst.
  destruct (String.eqb_spec (url l) u) as [E|E]; simpl; [exact H|].
  constructor; [|apply IH; exact Ht].
  rewrite add_areas_urls. intros [Hi|Hi]; [exact (Hn Hi)|congruence].
Qed.

Lemma add_areas_count : forall ls u rs,
  length (flat_map areas (add_areas ls u rs)) = (length (flat_map areas ls) + length rs)%nat.
Proof.
  induction ls as [|l t IH]; intros u rs; simpl; [rewrite app_nil_r; reflexivity|].
  destruct (String.eqb (url l) u); simpl; rewrite !length_app; [|rewrite IH]; lia.
Qed.

(** X5: [mergeLinks] keeps one entry per URL: if the layout's links name
    each URL at most once, so do they afterwards; the URLs afterwards are
    those of the layout and those of the merged links; and every merged
    rectangle is added, none lost or duplicated. *)
Theorem mergeLinks_unique_urls : forall l lks ddx ddy,
  NoDup (map url (tl_links l)) ->
  let l' := mergeLinks l lks ddx ddy in
  NoDup (map url (tl_links l'))
  /\ (forall u, In u (map url (tl_links l')) <-> In u (map url (tl_links l)) \/ In u (map url lks))
  /\ length (flat_map areas (tl_links l'))
     = (length (flat_map areas (tl_links l)) + length (flat_map areas lks))%nat.
Proof.
  intros l lks ddx ddy. unfold mergeLinks, set_links. simpl. generalize (tl_links l). clear l.
  induction lks as [|k ks IH]; intros acc Hn; simpl.
  - split; [exact Hn|]. split; [tauto|]. lia.
  - destruct (IH (add_areas acc (url k) (map (shift_rect ddx ddy) (areas k))))
      as (H1 & H2 & H3); [apply add_areas_nodup; exact Hn|].
    split; [exact H1|]. split.
    + intros u. rewrite H2, add_areas_urls. intuition congruence.
    + rewrite H3, add_areas_count, length_map, length_app. lia.
Qed.

Lemma mergeLinks_unique_urls_witness :
  NoDup (map url (tl_links emptyLayout))
  /\ NoDup (map url (tl_links (mergeLinks emptyLayout
       [{| url := "a"%string; areas := [Build_Rect 0 0 1 1] |};
        {| url := "a"%string; areas := [Build_Rect 2 0 1 1] |}] 0 0))).
Proof.
  assert (H : NoDup (map url (tl_links emptyLayout))) by constructor.
  split; [exact H|].
  exact (proj1 (mergeLinks_unique_urls emptyLayout
       [{| url := "a"%string; areas := [Build_Rect 0 0 1 1] |};
        {| url := "a"%string; areas := [Build_Rect 2 0 1 1] |}] 0 0 H)).
Defined.

(** ** Runs of [createTextRuns] *)

Lemma run_end_spec : forall v rs font k p,
  (rs < p)%nat -> (p <= vsize v)%nat -> (vsize v - p <= k)%nat ->
  (forall q, (rs < q < p)%nat -> run_continues v rs q font = true) ->
  let e := run_end v rs font k p in
  (p <= e <= vsize v)%nat
  /\ (forall q, (rs < q < e)%nat -> run_continues v rs q font = true)
  /\ ((e < vsize v)%nat -> run_continues v rs e font = false).
Proof.
  intros v rs font k. induction k as [|k IH]; intros p H1 H2 H3 H4; simpl.
  - split; [lia|]. split; [exact H4|]. intros; lia.
  - destruct (run_continues v rs p font) eqn:E.
    + assert (Hp : (p < vsize v)%nat).
      { unfold run_continues in E. repeat rewrite Bool.andb_true_iff in E.
        apply Nat.ltb_lt. tauto. }
      destruct (IH (S p) ltac:(lia) ltac:(lia) ltac:(lia)) as (A & B & C).
      { intros q Hq. destruct (Nat.eq_dec q p) as [->|]; [exact E|apply H4; lia]. }
      split; [lia|]. split; assumption.
    + split; [lia|]. split; [exact H4|]. intros _; exact E.
Qed.

(** X6: every run that [createTextRuns] cuts at [runstart] ends at the
    first position where the run condition fails, inside the view; every
    later character of the run has the direction, language, font and
    baseline shift of its first one, is neither an inline object nor a
    space, newline or soft hyphen, follows no space, newline or inline
    object, carries no hyphenation mark, and is joined by a "no break" or
    "inside a character" line break.  So a space, a newline and an inline
    object always form a run of their own. *)
Theorem createTextRuns_runs_homogeneous : forall v rs,
  (rs < vsize v)%nat ->
  let font := fs_get (a_font (att v rs)) (vtxt v rs) in
  let e := run_end v rs font (vsize v) (S rs) in
  (rs < e <= vsize v)%nat
  /\ (forall p, (rs < p < e)%nat ->
        emb v p = emb v rs /\ a_lang (att v p) = a_lang (att v rs)
        /\ font_eqb font (fs_get (a_font (att v p)) (vtxt v p)) = true
        /\ a_baseline_shift (att v p) = a_baseline_shift (att v rs)
        /\ a_inlay (att v p) = None /\ a_inlay (att v (p - 1)) = None
        /\ ~ In (vtxt v p) [0x20; 0x0A; 0xAD] /\ ~ In (vtxt v (p - 1)) [0x20; 0x0A]
        /\ hyp v p = false /\ lb_continues (lnb v (p - 1)) = true)
  /\ ((e < vsize v)%nat -> run_continues v rs e font = false)
  /\ (In (vtxt v rs) [0x20; 0x0A] \/ has_inlay (att v rs) = true -> e = S rs).
Proof.
  intros v rs Hrs font e.
  destruct (run_end_spec v rs font (vsize v) (S rs) ltac:(lia) ltac:(lia) ltac:(lia)) as (A & B & C).
  { intros q Hq; lia. }
  fold e in A, B, C.
  assert (Hp : forall p, (rs < p < e)%nat ->
        emb v p = emb v rs /\ a_lang (att v p) = a_lang (att v rs)
        /\ font_eqb font (fs_get (a_font (att v p)) (vtxt v p)) = true
        /\ a_baseline_shift (att v p) = a_baseline_shift (att v rs)
        /\ a_inlay (att v p) = None /\ a_inlay (att v (p - 1)) = None
        /\ ~ In (vtxt v p) [0x20; 0x0A; 0xAD] /\ ~ In (vtxt v (p - 1)) [0x20; 0x0A]
        /\ hyp v p = false /\ lb_continues (lnb v (p - 1)) = true).
  { intros p Hp. specialize (B p Hp). unfold run_continues, has_inlay in B.
    repeat rewrite Bool.andb_true_iff in B.
    destruct B as [[[[[[[[[[[[[_ Hemb] Hlang] Hfont] Hbase] Hin1] Hin2] Hlb] Hs1] Hs2] Hn1] Hn2] Hshy] Hhyp].
    apply Z.eqb_eq in Hemb. apply String.eqb_eq in Hlang. apply Z.eqb_eq in Hbase.
    apply Bool.negb_true_iff in Hin1, Hin2, Hs1, Hs2, Hn1, Hn2, Hshy, Hhyp.
    apply Z.eqb_neq in Hs1, Hs2, Hn1, Hn2, Hshy.
    split; [auto|]. split; [auto|]. split; [exact Hfont|]. split; [auto|].
    split; [destruct (a_inlay (att v p)); [discriminate|reflexivity]|].
    split; [destruct (a_inlay (att v (p - 1))); [discriminate|reflexivity]|].
    split; [simpl; intros [H|[H|[H|[]]]]; auto|].
    split; [simpl; intros [H|[H|[]]]; auto|].
    split; assumption. }
  split; [exact A|]. split; [exact Hp|]. split; [exact C|].
  intros Hs. destruct (Nat.eq_dec e (S rs)) as [|Hne]; [assumption|exfalso].
  destruct (Hp (S rs) ltac:(lia)) as (_ & _ & _ & _ & _ & Hi & _ & Hsp & _).
  simpl in Hi, Hsp. rewrite Nat.sub_0_r in Hi, Hsp.
  destruct Hs as [Hs|Hs]; [exact (Hsp Hs)|].
  unfold has_inlay in Hs. rewrite Hi in Hs. discriminate.
Qed.

Lemma createTextRuns_runs_homogeneous_witness :
  (0 < vsize ex_view_asb)%nat
  /\ run_end ex_view_asb 1
       (fs_get (a_font (att ex_view_asb 1))
               (vtxt ex_view_asb 1))
       (vsize ex_view_asb) 2 = 2%nat.
Proof.
  assert (H : (1 < vsize ex_view_asb)%nat)
    by (vm_compute; lia).
  split; [lia|].
  apply (proj2 (proj2 (proj2 (createTextRuns_runs_homogeneous _ 1 H)))).
  left. vm_compute. left. reflexivity.
Defined.

(** ** The advance of a run *)

Lemma zsum_app : forall l1 l2 : list Z,
  fold_right Z.add 0 (l1 ++ l2) = fold_right Z.add 0 l1 + fold_right Z.add 0 l2.
Proof. induction l1 as [|x l IH]; intros l2; simpl; [reflexivity|]. rewrite IH. lia. Qed.

Lemma zsum_rev : forall l : list Z, fold_right Z.add 0 (rev l) = fold_right Z.add 0 l.
Proof. induction l as [|x l IH]; simpl; [reflexivity|]. rewrite zsum_app, IH. simpl. lia. Qed.

Lemma first_pass_fold_dx : forall v prop asc desc gs st,
  p_dx (fold_left (first_pass_step v prop asc desc) gs st)
  = p_dx st + fold_right Z.add 0
      (map (fun g => match a_inlay (att v (g_cluster g)) with Some _ => 0 | None => x_advance g end) gs).
Proof.
  induction gs as [|g gs IH]; intros st; simpl; [lia|].
  rewrite IH. unfold first_pass_step.
  destruct (a_inlay (att v (g_cluster g))); simpl; [lia|].
  repeat match goal with |- context [if ?b then _ else _] => destruct b end; simpl; lia.
Qed.

Lemma second_pass_dx : forall v prop runstart font asc rdy gs cmds rdx cmds' rdx',
  second_pass v prop runstart font asc rdy gs cmds rdx = inr (cmds', rdx') ->
  rdx' = rdx + fold_right Z.add 0
      (map (fun p => match a_inlay (att v (g_cluster (fst p))) with
                     | Some i => inlay_right i | None => 0 end) gs).
Proof.
  intros v prop runstart font asc rdy gs. induction gs as [|[g gx] gs IH]; intros cmds rdx cmds' rdx' H;
    simpl in *.
  - injection H as _ <-. lia.
  - destruct (a_inlay (att v (g_cluster g))) as [i|].
    + rewrite (IH _ _ _ _ H). lia.
    + destruct (negb (y_advance g =? 0)); [discriminate|]. rewrite (IH _ _ _ _ H). lia.
Qed.

Lemma zsum_combine_fst : forall {B} (F : GlyphOut -> Z) (l : list GlyphOut) (xs : list B),
  length xs = length l ->
  fold_right Z.add 0 (map (fun p => F (fst p)) (combine l xs)) = fold_right Z.add 0 (map F l).
Proof.
  intros B F. induction l as [|x l IH]; intros [|y xs] H; simpl in *; try discriminate; [reflexivity|].
  rewrite IH by lia. reflexivity.
Qed.

(** X7: a run created by [createRun] advances by the sum of its glyphs'
    advances: the shaper's [x_advance] of each ordinary glyph and the
    width of each inline object, whatever the text direction. *)
Theorem createRun_dx_sum : forall env v spos runstart prop font r,
  createRun env v spos runstart prop font = inr r ->
  dx r = fold_right Z.add 0 (map (glyph_advance v) (run_glyphs env v spos runstart font)).
Proof.
  intros env v spos runstart prop font r H. unfold createRun in H.
  set (glyphs := run_glyphs env v spos runstart font) in *.
  destruct (match a_inlay (att v runstart) with Some i => _ | None => _ end) as [asc desc].
  set (p1 := first_pass v prop asc desc glyphs) in *.
  set (gs := combine glyphs (p_xoff p1)) in *.
  destruct (second_pass _ _ _ _ _ _ _ _ _) as [e|[cmds rdx]] eqn:E; simpl in H; [discriminate|].
  injection H as <-. simpl.
  rewrite (second_pass_dx _ _ _ _ _ _ _ _ _ _ _ E).
  assert (Hs : fold_right Z.add 0
      (map (fun p => match a_inlay (att v (g_cluster (fst p))) with
                     | Some i => inlay_right i | None => 0 end)
           (if negb (Z.even (emb v runstart)) then rev gs else gs))
    = fold_right Z.add 0 (map (fun g => match a_inlay (att v (g_cluster g)) with
                                        | Some i => inlay_right i | None => 0 end) glyphs)).
  { rewrite <- (zsum_combine_fst (fun g => match a_inlay (att v (g_cluster g)) with
                                          | Some i => inlay_right i | None => 0 end) glyphs (p_xoff p1))
      by apply first_pass_xoff_length.
    destruct (negb _); [|reflexivity]. rewrite map_rev, zsum_rev. reflexivity. }
  rewrite Hs. unfold p1, first_pass. rewrite first_pass_fold_dx. simpl.
  clear. induction glyphs as [|g gs IH]; simpl; [reflexivity|].
  unfold glyph_advance at 1. destruct (a_inlay (att v (g_cluster g))); lia.
Qed.

Lemma createRun_dx_sum_witness :
  createRun (ex_env_advancing 0) ex_view_asb 1 0 (ex_prop false) (Some ex_font) = inr
    (match createRun (ex_env_advancing 0) ex_view_asb 1 0 (ex_prop false) (Some ex_font) with
     | inr r => r | inl _ => default_run end)
  /\ dx (match createRun (ex_env_advancing 0) ex_view_asb 1 0 (ex_prop false) (Some ex_font) with
         | inr r => r | inl _ => default_run end)
     = fold_right Z.add 0 (map (glyph_advance ex_view_asb) (run_glyphs (ex_env_advancing 0) ex_view_asb 1 0 (Some ex_font))).
Proof.
  assert (H : createRun (ex_env_advancing 0) ex_view_asb 1 0 (ex_prop false) (Some ex_font) = inr
    (match createRun (ex_env_advancing 0) ex_view_asb 1 0 (ex_prop false) (Some ex_font) with
     | inr r => r | inl _ => default_run end)) by (vm_compute; reflexivity).
  split; [exact H|]. exact (createRun_dx_sum _ _ _ _ _ _ _ H).
Defined.

(** ** Visual order of a line *)

Lemma reverse_range_perm : forall (o : list nat) j k, (j <= k)%nat ->
  Permutation (reverse_range o j k) o.
Proof.
  intros o j k H. unfold reverse_range.
  rewrite <- (firstn_skipn j o) at 4. apply Permutation_app_head.
  replace (skipn k o) with (skipn (k - j) (skipn j o)) by (rewrite skipn_skipn; f_equal; lia).
  rewrite <- (firstn_skipn (k - j) (skipn j o)) at 3. apply Permutation_app_tail.
  apply Permutation_sym, Permutation_rev.
Qed.

Lemma seg_end_ge : forall lv o i n k, (k <= seg_end lv o i n k)%nat.
Proof.
  intros lv o i n. induction n as [|n IH]; intros k; simpl; [lia|].
  destruct (_ && _); [specialize (IH (S k)); lia|lia].
Qed.

Lemma reorder_pass_perm : forall lv i n j o, Permutation (reorder_pass lv i n j o) o.
Proof.
  intros lv i n. induction n as [|n IH]; intros j o; simpl; [reflexivity|].
  destruct (Nat.ltb j (length o)); [|reflexivity].
  destruct (Z.ltb i (lv (nth j o 0%nat))); [|apply IH].
  eapply Permutation_trans; [apply IH|]. apply reverse_range_perm.
  pose proof (seg_end_ge lv o i (length o) (S j)). lia.
Qed.

Lemma runorder_perm : forall runs runstart spos,
  Permutation (runorder runs runstart spos) (seq runstart (spos - runstart)).
Proof.
  intros runs runstart spos. unfold runorder. cbv zeta.
  match goal with |- Permutation (fold_left ?f ?is ?o) _ =>
    assert (G : forall is' o', Permutation (fold_left f is' o') o') end.
  { induction is' as [|i is IH]; intros o'; simpl; [reflexivity|].
    eapply Permutation_trans; [apply IH|]. apply reorder_pass_perm. }
  apply G.
Qed.

(** X8: the visual order [addLine] computes for the runs [runstart ..
    spos) of a line is a permutation of them: every run of the line is
    placed exactly once, whatever the embedding levels. *)
Theorem runorder_permutation : forall runs runstart spos,
  Permutation (runorder runs runstart spos) (seq runstart (spos - runstart)).
Proof.
  exact runorder_perm.
Qed.

Lemma seg_end_all : forall lv o i n k,
  (forall x, In x o -> i < lv x) -> (length o - k <= n)%nat -> (k <= length o)%nat ->
  seg_end lv o i n k = length o.
Proof.
  intros lv o i n. induction n as [|n IH]; intros k Hall Hn Hk; simpl; [lia|].
  destruct (Nat.ltb_spec k (length o)) as [Hlt|Hge]; simpl.
  - assert (Hi : i < lv (nth k o 0%nat)) by (apply Hall, nth_In; exact Hlt).
    apply Z.ltb_lt in Hi. rewrite Hi. apply IH; auto; lia.
  - lia.
Qed.

Lemma reorder_pass_past : forall lv i n j o, (length o <= j)%nat -> reorder_pass lv i n j o = o.
Proof.
  intros lv i n j o H. destruct n; simpl; [reflexivity|].
  replace (Nat.ltb j (length o)) with false by (symmetry; apply Nat.ltb_ge; lia). reflexivity.
Qed.

Lemma reverse_range_all : forall o : list nat, reverse_range o 0 (length o) = rev o.
Proof.
  intros o. unfold reverse_range. rewrite Nat.sub_0_r. simpl.
  rewrite firstn_all, skipn_all, app_nil_r. reflexivity.
Qed.

Lemma reorder_pass_all : forall lv i n o,
  (forall x, In x o -> i < lv x) -> (1 <= n)%nat -> reorder_pass lv i n 0 o = rev o.
Proof.
  intros lv i n o Hall Hn. destruct n as [|n]; [lia|].
  destruct o as [|x o']; [reflexivity|].
  set (o := x :: o') in *. cbn [reorder_pass].
  replace (Nat.ltb 0 (length o)) with true by (symmetry; apply Nat.ltb_lt; simpl; lia).
  replace (nth 0 o 0%nat) with x by reflexivity.
  assert (Hx : i < lv x) by (apply Hall; left; reflexivity). apply Z.ltb_lt in Hx. rewrite Hx.
  rewrite (seg_end_all lv o i (length o) 1) by (auto; simpl; lia).
  rewrite reverse_range_all, reorder_pass_past; [reflexivity|]. rewrite length_rev. lia.
Qed.

Lemma Z_even_of_nat : forall n, Z.even (Z.of_nat n) = Nat.even n.
Proof.
  induction n as [|n IH]; [reflexivity|].
  rewrite Nat2Z.inj_succ, Z.even_succ, <- Z.negb_even, IH, Nat.even_succ, <- Nat.negb_even.
  reflexivity.
Qed.

Lemma fold_max_const : forall (f : nat -> Z) L o m, 0 <= L -> 0 <= m <= L ->
  (forall x, In x o -> f x = L) -> o <> [] ->
  fold_left (fun m ri => Z.max m (f ri)) o m = L.
Proof.
  intros f L o. induction o as [|x o IH]; intros m HL Hm Hall Hne; [congruence|]. simpl.
  rewrite (Hall x (or_introl eq_refl)). replace (Z.max m L) with L by lia.
  destruct o as [|y o]; [reflexivity|]. apply IH; auto; [lia| |discriminate].
  intros z Hz. apply Hall. right. exact Hz.
Qed.

(** X9: a line whose runs all have the same embedding level [L] is placed
    in logical order when [L] is even (left-to-right) and in fully
    reversed order when [L] is odd (right-to-left). *)
Theorem runorder_uniform_level : forall runs runstart spos L,
  0 <= L ->
  (forall ri, (runstart <= ri < spos)%nat -> embeddingLevel (run_at runs ri) = L) ->
  runorder runs runstart spos
  = if Z.even L then seq runstart (spos - runstart) else rev (seq runstart (spos - runstart)).
Proof.
  intros runs runstart spos L HL Hall. unfold runorder. cbv zeta.
  set (lv := fun ri => embeddingLevel (run_at runs ri)).
  set (o := seq runstart (spos - runstart)).
  assert (Ho : forall x, In x o -> lv x = L).
  { intros x Hx. apply in_seq in Hx. apply Hall. lia. }
  destruct (Nat.eq_dec (spos - runstart) 0) as [E0|Hne0].
  - subst o. rewrite E0. simpl. destruct (Z.even L); reflexivity.
  - assert (Hne : o <> []) by (subst o; destruct (spos - runstart)%nat; [lia|discriminate]).
    assert (Hm : fold_left (fun m ri => Z.max m (embeddingLevel (run_at runs ri))) o 0 = L)
      by (apply (fold_max_const (fun ri => embeddingLevel (run_at runs ri))); auto; lia).
    rewrite Hm.
    assert (G : forall (is : list Z) o1, (forall i, In i is -> i < L) ->
               (forall x, In x o1 -> lv x = L) -> o1 <> [] ->
               fold_left (fun o i => reorder_pass lv i (length o) 0 o) is o1
               = if Nat.even (length is) then o1 else rev o1).
    { induction is as [|i is IH]; intros o1 Hi Ho1 Hn1; simpl; [reflexivity|].
      rewrite reorder_pass_all.
      2: { intros x Hx. rewrite Ho1 by exact Hx. apply Hi. left. reflexivity. }
      2: { destruct o1; [congruence|simpl; lia]. }
      rewrite IH.
      - change (match length is with 0%nat => false | S n' => Nat.even n' end) with (Nat.even (S (length is))). rewrite Nat.even_succ, <- Nat.negb_even. destruct (Nat.even (length is)); simpl;
          [reflexivity|apply rev_involutive].
      - intros j Hj. apply Hi. right. exact Hj.
      - intros x Hx. apply Ho1. apply in_rev. exact Hx.
      - intros E. apply Hn1. rewrite <- (rev_involutive o1), E. reflexivity. }
    rewrite G.
    + rewrite length_map, length_rev, length_seq.
      rewrite <- Z_even_of_nat, Z2Nat.id by exact HL. reflexivity.
    + intros i Hi. apply in_map_iff in Hi. destruct Hi as (n & <- & Hn).
      apply in_rev, in_seq in Hn. lia.
    + exact Ho.
    + exact Hne.
Qed.

Lemma runorder_uniform_level_witness :
  runorder [ex_run_rtl; ex_run_rtl; ex_run_rtl] 0 3 = [2; 1; 0]%nat.
Proof.
  rewrite (runorder_uniform_level [ex_run_rtl; ex_run_rtl; ex_run_rtl] 0 3 1);
    [reflexivity | lia |].
  intros ri Hri. destruct ri as [|[|[|ri]]]; try reflexivity. lia.
Defined.

(** ** Greedy breaker: line heights are non-negative *)

Lemma probe_sign : forall runs k a,
  0 <= la_asc a -> la_desc a <= 0 ->
  0 <= la_asc (probe runs k a) /\ la_desc (probe runs k a) <= 0.
Proof.
  induction k as [|k IH]; intros a Ha Hd; simpl; [lia|].
  destruct (Nat.ltb (la_spos a) (length runs)); [|lia].
  destruct (group_ends runs (la_spos a)); simpl; [lia|].
  apply IH; simpl; lia.
Qed.

Lemma line_loop_sign : forall runs shape ypos runstart fuel cur c fb,
  0 <= la_asc cur -> la_desc cur <= 0 ->
  line_loop runs shape ypos runstart fuel cur = Some (c, fb) ->
  0 <= la_asc c /\ la_desc c <= 0.
Proof.
  intros runs shape ypos runstart fuel. induction fuel as [|f IH]; intros cur c fb Ha Hd E;
    simpl in E; destruct (Nat.ltb (la_spos cur) (length runs)); try discriminate;
    try (injection E as <- <-; lia).
  unfold line_step in E.
  destruct (probe_sign runs (length runs) cur Ha Hd) as [Ha' Hd'].
  destruct (Nat.ltb runstart (la_spos cur) && overruns shape ypos (candidate_group runs cur)).
  - injection E as <- <-; lia.
  - cbv zeta in E. match type of E with
    | (if ?b then _ else _) = _ => destruct b; [injection E as <- <-|apply IH in E]
    end; unfold candidate_group in *; simpl in *; lia.
Qed.

Lemma bl_iter_ypos : forall shape prop st st',
  bl_iter shape prop st = Some st' -> b_ypos st <= b_ypos st'.
Proof.
  intros shape prop st st' E. unfold bl_iter in E.
  match type of E with
  | match line_loop ?r ?s ?y ?rs ?f ?c0 with _ => _ end = _ =>
      destruct (line_loop r s y rs f c0) as [[c fb]|] eqn:L; [|discriminate];
      destruct (line_loop_sign r s y rs f c0 c fb ltac:(simpl; lia) ltac:(simpl; lia) L) as [Ha Hd]
  end.
  match type of E with
  | (let '(_, _) := ?p in _) = _ => destruct p as [runs' l']
  end.
  injection E as <-. simpl. lia.
Qed.

Lemma bl_loop_ypos : forall shape prop fuel st st',
  bl_loop shape prop fuel st = Some st' -> b_ypos st <= b_ypos st'.
Proof.
  induction fuel as [|f IH]; intros st st' E; simpl in E;
    destruct (Nat.ltb (b_runstart st) (length (b_runs st))); try discriminate;
    try (injection E as <-; lia).
  destruct (bl_iter shape prop st) as [s|] eqn:I; [|discriminate].
  apply bl_iter_ypos in I. apply IH in E. lia.
Qed.

(** X10: the greedy breaker's layout reaches at least down to [ystart]: its
    height is never above the start position, and its left and right
    extents are the shape's [getLeft2]/[getRight2] over [ystart .. height]. *)
Theorem breakLines_height_ge_ystart : forall runs shape prop ystart l,
  breakLines runs shape prop ystart = inr l ->
  ystart <= height l
  /\ tl_left l = getLeft2 shape ystart (height l)
  /\ tl_right l = getRight2 shape ystart (height l).
Proof.
  intros runs shape prop ystart l E. unfold breakLines in E.
  destruct (bl_loop shape prop (length runs) (bl_init runs ystart)) as [st|] eqn:B; [|discriminate].
  injection E as <-. apply bl_loop_ypos in B. simpl in *. auto.
Qed.

Lemma breakLines_height_ge_ystart_witness :
  5 <= height (match breakLines [ex_run 10 LINEBREAK_ALLOWBREAK; ex_run 10 LINEBREAK_ALLOWBREAK]
                                (ex_shape 15) (ex_prop false) 5 with
               | inr l => l | inl _ => emptyLayout end).
Proof.
  apply (breakLines_height_ge_ystart [ex_run 10 LINEBREAK_ALLOWBREAK; ex_run 10 LINEBREAK_ALLOWBREAK]
                                     (ex_shape 15) (ex_prop false) 5).
  vm_compute. reflexivity.
Defined.

(** ** Optimizing breaker: its loop bound is never reached *)

Lemma emit_lines_length : forall shape prop breaks top iis runs li l,
  length (fst (fst (emit_lines shape prop breaks top iis runs li l))) = length runs.
Proof.
  intros shape prop breaks top. induction iis as [|ii rest IH]; intros runs li l; simpl; [reflexivity|].
  match goal with
  | |- context [addLine ?a1 ?a2 ?a3 ?a4 ?a5 ?a6 ?a7 ?a8 ?a9 ?a10 ?a11] =>
      pose proof (addLine_length a1 a2 a3 a4 a5 a6 a7 a8 a9 a10 a11) as H;
      destruct (addLine a1 a2 a3 a4 a5 a6 a7 a8 a9 a10 a11) as [runs' l']
  end.
  rewrite IH. exact H.
Qed.

Lemma opt_loop_ends : forall shape prop fuel i runs li l,
  (1 <= i)%nat -> (length runs + 1 - i < fuel)%nat ->
  exists r, opt_loop shape prop fuel i runs li l = Some r.
Proof.
  intros shape prop. induction fuel as [|f IH]; intros i runs li l Hi Hf; [lia|].
  simpl. destruct (Nat.ltb_spec i (length runs + 1)) as [Hlt|Hge]; [|eexists; reflexivity].
  cbv zeta.
  match goal with
  | |- exists _, (if ?b then _ else _) = _ => destruct b
  end.
  - match goal with
    | |- context [emit_lines ?s ?pr ?b ?t ?is ?r ?li0 ?l0] =>
        pose proof (emit_lines_length s pr b t is r li0 l0) as H;
        destruct (emit_lines s pr b t is r li0 l0) as [[runs2 li2] l2]
    end.
    apply IH; [lia|].
    rewrite length_skipn. simpl in H. rewrite H. lia.
  - apply IH; lia.
Qed.

Lemma breakLinesOptimize_inr : forall runs shape prop ystart,
  exists l, breakLinesOptimize runs shape prop ystart = inr l
            /\ tl_left l = getLeft2 shape ystart (height l)
            /\ tl_right l = getRight2 shape ystart (height l).
Proof.
  intros runs shape prop ystart. unfold breakLinesOptimize. cbv zeta.
  match goal with
  | |- context [opt_loop ?s ?p ?f ?i ?r ?li ?l0] =>
      destruct (opt_loop_ends s p f i r li l0 ltac:(lia) ltac:(lia)) as [[[runs' li'] l'] E];
      rewrite E
  end.
  eexists. split; [reflexivity|]. simpl. auto.
Qed.

(** X11: the optimizing breaker always returns a layout: its main loop, which
    restarts at [i = 1] on the remaining runs after every forced break,
    ends within [runs.size() + 1] iterations, so [LoopBound] is never
    produced; the layout's extents are the shape's [getLeft2]/[getRight2]
    from [ystart] to its height. *)
Theorem breakLinesOptimize_returns_layout : forall runs shape prop ystart,
  exists l, breakLinesOptimize runs shape prop ystart = inr l
            /\ tl_left l = getLeft2 shape ystart (height l)
            /\ tl_right l = getRight2 shape ystart (height l).
Proof.
  exact breakLinesOptimize_inr.
Qed.

(** ** [layoutParagraph]: which errors it reports *)

Lemma runs_loop_error : forall env v prop k runstart acc e,
  runs_loop env v prop k runstart acc = inl e -> e = NonLinearScript.
Proof.
  intros env v prop. induction k as [|k IH]; intros runstart acc e E; simpl in E; [discriminate|].
  destruct (Nat.ltb runstart (vsize v)); [|discriminate].
  unfold bind at 1 in E.
  match type of E with
  | match createRun ?en ?vv ?sp ?rs ?pr ?fo with _ => _ end = _ =>
      destruct (createRun en vv sp rs pr fo) as [e1|r] eqn:C;
      [injection E as <-; exact (proj1 (createRun_error en vv sp rs pr fo) e1 C)|]
  end.
  unfold bind at 1 in E.
  match type of E with
  | match ?m with _ => _ end = _ => destruct m as [e2|ex] eqn:X; [injection E as <-|exact (IH _ _ _ E)]
  end.
  destruct (hyp v _); [|discriminate].
  unfold bind in X.
  match type of X with
  | match createRun ?en ?vv ?sp ?rs ?pr ?fo with _ => _ end = _ =>
      destruct (createRun en vv sp rs pr fo) as [e3|r2] eqn:C2; [injection X as <-|discriminate]
  end.
  exact (proj1 (createRun_error _ _ _ _ _ _) e3 C2).
Qed.

Lemma breakLines_inr : forall runs shape prop ystart,
  exists l, breakLines runs shape prop ystart = inr l.
Proof.
  intros runs shape prop ystart. unfold breakLines.
  destruct (bl_loop_ends shape prop (length runs) (bl_init runs ystart)) as (st & E & _);
    [simpl; lia|].
  rewrite E. eexists. reflexivity.
Qed.

(** X12: [layoutParagraph] fails with [BidiFailure] exactly when the bidi
    analysis fails, and never with [LoopBound]: every other failure is a
    [NonLinearScript] from run creation. *)
Theorem layoutParagraph_error_kinds : forall env txt a shape prop ystart e,
  (layoutParagraph env txt a shape prop ystart = inl BidiFailure
   <-> fribidi_levels env txt (ltr prop) = None)
  /\ (layoutParagraph env txt a shape prop ystart = inl e ->
      e = BidiFailure \/ e = NonLinearScript).
Proof.
  intros env txt a shape prop ystart e. unfold layoutParagraph.
  destruct (fribidi_levels env txt (ltr prop)) as [levels|].
  2: { split; [tauto|]. intros E. injection E as <-. left. reflexivity. }
  cbv zeta. unfold bind.
  match goal with
  | |- context [createTextRuns ?en ?vv ?pr] =>
      destruct (createTextRuns en vv pr) as [e1|runs] eqn:C
  end.
  - assert (e1 = NonLinearScript) as -> by exact (runs_loop_error _ _ _ _ _ _ _ C).
    split; [split; discriminate|]. intros E. injection E as <-. right. reflexivity.
  - destruct (optimizeLinebreaks prop).
    + destruct (breakLinesOptimize_inr runs shape prop ystart) as (l & E & _).
      rewrite E. split; [split; discriminate|discriminate].
    + destruct (breakLines_inr runs shape prop ystart) as (l & E).
      rewrite E. split; [split; discriminate|discriminate].
Qed.

(** ** [normalizeHTML] *)

Lemma normalize_fold_app : forall s out p,
  fold_left normalize_step s (out, p)
  = (out ++ fst (fold_left normalize_step s ([], p)), snd (fold_left normalize_step s ([], p))).
Proof.
  induction s as [|a s IH]; intros out p; simpl; [rewrite app_nil_r; reflexivity|].
  set (a' := if Ascii.eqb a "010"%char || Ascii.eqb a "013"%char then " "%char else a).
  destruct (negb (Ascii.eqb a' " ") || negb (Ascii.eqb p " ")).
  - rewrite (IH (out ++ [a'])), (IH ([] ++ [a'])). simpl. rewrite <- app_assoc. reflexivity.
  - rewrite (IH out), (IH []). reflexivity.
Qed.

Lemma normalizeHTML_cons : forall a s p,
  normalizeHTML (a :: s) p
  = (if negb (Ascii.eqb (nl_space a) " "%char) || negb (Ascii.eqb p " "%char)
     then [nl_space a] else []) ++ normalizeHTML (s) (nl_space a).
Proof.
  intros a s p. unfold normalizeHTML. simpl. rewrite normalize_fold_app. reflexivity.
Qed.

Lemma last_cons : forall {A} (x : A) l d, last (x :: l) d = last l x.
Proof.
  intros A x l. revert x. induction l as [|y l IH]; intros x d; [reflexivity|].
  change (last (x :: y :: l) d) with (last (y :: l) d). rewrite (IH y d), (IH y x). reflexivity.
Qed.

Lemma normalize_prev : forall s p,
  snd (fold_left normalize_step s ([], p)) = last (normalizeHTML s p) p.
Proof.
  induction s as [|a s IH]; intros p; [reflexivity|].
  rewrite normalizeHTML_cons.
  change (fold_left normalize_step (a :: s) ([], p))
    with (fold_left normalize_step s (normalize_step ([], p) a)).
  unfold normalize_step. fold (nl_space a). rewrite normalize_fold_app. simpl.
  rewrite IH.
  destruct (negb (Ascii.eqb (nl_space a) " ") || negb (Ascii.eqb p " ")) eqn:C; simpl.
  - symmetry. apply last_cons.
  - apply orb_false_iff in C. destruct C as [C1 C2].
    apply negb_false_iff, Ascii.eqb_eq in C1, C2. rewrite C1, C2. reflexivity.
Qed.


Lemma nl_space_not_nl : forall a, nl_space a <> "010"%char /\ nl_space a <> "013"%char.
Proof.
  intros a. unfold nl_space.
  destruct (Ascii.eqb a "010" || Ascii.eqb a "013") eqn:C; [split; discriminate|].
  apply orb_false_iff in C. destruct C as [C1 C2].
  split; intros E; subst; discriminate.
Qed.

Lemma nl_space_id : forall a, a <> "010"%char -> a <> "013"%char -> nl_space a = a.
Proof.
  intros a H1 H2. unfold nl_space.
  apply Ascii.eqb_neq in H1, H2. rewrite H1, H2. reflexivity.
Qed.

Lemma normalizeHTML_form : forall s p,
  ~ In "010"%char (normalizeHTML s p) /\ ~ In "013"%char (normalizeHTML s p)
  /\ no_double_space (p :: normalizeHTML s p) = true.
Proof.
  induction s as [|a s IH]; intros p; [simpl; tauto|].
  rewrite normalizeHTML_cons.
  destruct (IH (nl_space a)) as (N1 & N2 & D).
  destruct (nl_space_not_nl a) as [A1 A2].
  destruct (negb (Ascii.eqb (nl_space a) " ") || negb (Ascii.eqb p " ")) eqn:C; cbn [app].
  - split; [intros [E|E]; [congruence|tauto]|].
    split; [intros [E|E]; [congruence|tauto]|].
    change (no_double_space (p :: nl_space a :: normalizeHTML s (nl_space a)))
      with (negb (Ascii.eqb p " " && Ascii.eqb (nl_space a) " ")
            && no_double_space (nl_space a :: normalizeHTML s (nl_space a))).
    rewrite D, andb_true_r.
    destruct (Ascii.eqb p " "), (Ascii.eqb (nl_space a) " "); simpl in *; congruence.
  - apply orb_false_iff in C. destruct C as [C1 C2].
    apply negb_false_iff, Ascii.eqb_eq in C1, C2. rewrite C2, <- C1. auto.
Qed.

Lemma normalizeHTML_id : forall s p,
  ~ In "010"%char s -> ~ In "013"%char s -> no_double_space (p :: s) = true ->
  normalizeHTML s p = s.
Proof.
  induction s as [|a s IH]; intros p H1 H2 D; [reflexivity|].
  rewrite normalizeHTML_cons.
  rewrite nl_space_id by (intros E; subst; simpl in *; tauto).
  change (no_double_space (p :: a :: s))
    with (negb (Ascii.eqb p " " && Ascii.eqb a " ") && no_double_space (a :: s)) in D.
  apply andb_true_iff in D. destruct D as [D1 D2].
  replace (negb (Ascii.eqb a " ") || negb (Ascii.eqb p " ")) with true
    by (destruct (Ascii.eqb p " "), (Ascii.eqb a " "); simpl in *; congruence).
  simpl. rewrite IH; [reflexivity| | |exact D2]; intros E; simpl in *; tauto.
Qed.

(** X13: normalizing a text in pieces, each piece with [prev] the last
    character output so far ([prev] itself before any output), gives the
    normalization of the whole text.  [layoutXML_text] normalizes its
    consecutive character-data nodes this way, with [prev] a space for
    the first one and the last character of the text so far afterwards. *)
Theorem normalizeHTML_chunks : forall a b p,
  normalizeHTML (a ++ b) p
  = normalizeHTML a p ++ normalizeHTML b (last (normalizeHTML a p) p).
Proof.
  intros a b p. rewrite <- normalize_prev. unfold normalizeHTML at 1 2.
  rewrite fold_left_app.
  destruct (fold_left normalize_step a ([], p)) as [o q]. simpl.
  rewrite normalize_fold_app. reflexivity.
Qed.

(** X14: [normalizeHTML] output contains no ['\n'] and no ['\r'], never two
    spaces in a row, and does not start with a space when [prev] is one. *)
Theorem normalizeHTML_output_form : forall s p,
  ~ In "010"%char (normalizeHTML s p) /\ ~ In "013"%char (normalizeHTML s p)
  /\ no_double_space (normalizeHTML s p) = true
  /\ (p = " "%char -> hd_error (normalizeHTML s p) <> Some " "%char).
Proof.
  intros s p. destruct (normalizeHTML_form s p) as (N1 & N2 & D).
  split; [exact N1|]. split; [exact N2|].
  destruct (normalizeHTML s p) as [|c o] eqn:E; [split; [reflexivity|discriminate]|].
  change (no_double_space (p :: c :: o))
    with (negb (Ascii.eqb p " " && Ascii.eqb c " ") && no_double_space (c :: o)) in D.
  apply andb_true_iff in D. destruct D as [D1 D2]. split; [exact D2|].
  intros -> He. injection He as ->. discriminate.
Qed.

(** X15: a text is left unchanged by [normalizeHTML s prev] exactly when it has
    no ['\n'] or ['\r'] and no two adjacent spaces, counting [prev] as the
    character before it; in particular normalizing twice with the same
    [prev] gives the same result as normalizing once. *)
Theorem normalizeHTML_fixpoints : forall s p,
  (normalizeHTML s p = s
   <-> ~ In "010"%char s /\ ~ In "013"%char s /\ no_double_space (p :: s) = true)
  /\ normalizeHTML (normalizeHTML s p) p = normalizeHTML s p.
Proof.
  intros s p. split.
  - split.
    + intros E. rewrite <- E. apply normalizeHTML_form.
    + intros (H1 & H2 & D). apply normalizeHTML_id; assumption.
  - destruct (normalizeHTML_form s p) as (N1 & N2 & D). apply normalizeHTML_id; assumption.
Qed.

(** ** The [LayoutDataView] constructor *)

Lemma view_copy_filter : forall t i,
  fst (view_copy t i) = filter (fun c => negb (isBidiCharacter c)) t
  /\ length (snd (view_copy t i)) = length (fst (view_copy t i)).
Proof.
  induction t as [|c t IH]; intros i; simpl; [split; reflexivity|].
  destruct (IH (S i)) as [H1 H2].
  destruct (view_copy t (S i)) as [txt ix]. simpl in *.
  subst txt. destruct (negb (isBidiCharacter c)); simpl; rewrite ?H2; split; reflexivity.
Qed.

(** X16: the view built by the constructor holds the text with U+202A, U+202B
    and U+202C removed; its index map and its line-break vector have one
    entry per retained codepoint, [txt(i)] is the original codepoint at
    [idx[i]], and no hyphenation point is set yet. *)
Theorem mkView_contents : forall t a e,
  let v := mkView t a e in
  txt32 v = filter (fun c => negb (isBidiCharacter c)) t
  /\ length (idx v) = vsize v
  /\ length (linebreaks v) = vsize v
  /\ (forall i, (i < vsize v)%nat -> vtxt v i = nth (nth i (idx v) 0%nat) t 0)
  /\ (forall i, hyp v i = false).
Proof.
  intros t a e. cbv zeta. unfold mkView, vsize, vtxt, hyp.
  destruct (view_copy_filter t 0) as [F L].
  destruct (view_copy t 0) as [txt ix] eqn:E. simpl in *.
  destruct (view_copy_spec t 0 txt ix E) as (_ & _ & M).
  split; [exact F|]. split; [exact L|]. split; [rewrite repeat_length; exact L|].
  split; [|intros i; reflexivity].
  intros i Hi. rewrite M in Hi |- *.
  rewrite (nth_indep _ _ ((fun k => nth (k - 0) t 0) 0%nat) Hi).
  rewrite (map_nth (fun k => nth (k - 0) t 0)). rewrite Nat.sub_0_r. reflexivity.
Qed.

(** ** [addLine] outputs every visible command of the line once *)

Lemma flat_map_app_perm : forall {A B} (f h : A -> list B) (l : list A),
  Permutation (flat_map (fun a => f a ++ h a) l) (flat_map f l ++ flat_map h l).
Proof.
  intros A B f h. induction l as [|a l IH]; simpl; [reflexivity|].
  rewrite IH, <- !app_assoc. apply Permutation_app_head.
  rewrite !app_assoc. apply Permutation_app_tail. apply Permutation_app_comm.
Qed.

Lemma flat_map_swap_perm : forall {A B C} (g : A -> B -> list C) (la : list A) (lb : list B),
  Permutation (flat_map (fun a => flat_map (fun b => g a b) lb) la)
              (flat_map (fun b => flat_map (fun a => g a b) la) lb).
Proof.
  intros A B C g la lb. induction la as [|a la IH]; simpl.
  - induction lb; simpl; [reflexivity|exact IHlb].
  - rewrite IH. symmetry. apply (flat_map_app_perm (fun b => g a b) (fun b => flat_map (fun a0 => g a0 b) la)).
Qed.

Lemma flat_map_ext_in : forall {A B} (f g : A -> list B) (l : list A),
  (forall a, In a l -> f a = g a) -> flat_map f l = flat_map g l.
Proof.
  intros A B f g l H. induction l as [|a l IH]; simpl; [reflexivity|].
  rewrite H by (left; reflexivity). rewrite IH by (intros x Hx; apply H; right; exact Hx).
  reflexivity.
Qed.

Lemma flat_map_single_seq : forall {B} (x : B) k n s,
  flat_map (fun layer => if Nat.eqb k layer then [x] else []) (seq s n)
  = if Nat.leb s k && Nat.ltb k (s + n) then [x] else [].
Proof.
  intros B x k. induction n as [|n IH]; intros s; simpl.
  - destruct (Nat.leb_spec s k), (Nat.ltb_spec k (s + 0)); simpl; try reflexivity; lia.
  - rewrite IH. destruct (Nat.eqb_spec k s) as [->|Hne].
    + rewrite Nat.leb_refl. replace (Nat.leb (S s) s) with false by (symmetry; apply Nat.leb_gt; lia).
      replace (Nat.ltb s (s + S n)) with true by (symmetry; apply Nat.ltb_lt; lia). reflexivity.
    + cbn [app]. destruct (Nat.leb_spec (S s) k), (Nat.leb_spec s k), (Nat.ltb_spec k (S s + n)),
               (Nat.ltb_spec k (s + S n)); simpl; try reflexivity; lia.
Qed.

(** The layer loop of one run: with all its layers below [m], the commands
    picked layer by layer are those of the run. *)
Lemma layers_perm : forall (P : CommandData -> bool) (xs : list (nat * CommandData)) m,
  (forall p, In p xs -> (fst p < m)%nat) ->
  Permutation (flat_map (fun layer => filter (fun '(ly, c) => Nat.eqb ly (m - layer - 1) && P c) xs)
                        (seq 0 m))
              (filter (fun p => P (snd p)) xs).
Proof.
  intros P xs m. induction xs as [|[ly c] xs IH]; intros Hall; simpl.
  - induction (seq 0 m); simpl; [reflexivity|exact IHl].
  - rewrite (flat_map_ext_in _ (fun layer => (if Nat.eqb (m - ly - 1) layer && P c then [(ly, c)] else [])
                                  ++ filter (fun '(ly, c) => Nat.eqb ly (m - layer - 1) && P c) xs)).
    2: { intros layer Hl. apply in_seq in Hl.
         assert (Hly : (ly < m)%nat) by (apply (Hall (ly, c)); left; reflexivity).
         replace (Nat.eqb ly (m - layer - 1)) with (Nat.eqb (m - ly - 1) layer)
           by (destruct (Nat.eqb_spec ly (m - layer - 1)), (Nat.eqb_spec (m - ly - 1) layer);
               reflexivity || lia).
         destruct (Nat.eqb (m - ly - 1) layer && P c); reflexivity. }
    rewrite flat_map_app_perm.
    assert (Hly : (ly < m)%nat) by (apply (Hall (ly, c)); left; reflexivity).
    destruct (P c).
    + rewrite (flat_map_ext_in _ (fun layer => if Nat.eqb (m - ly - 1) layer then [(ly, c)] else []))
        by (intros; rewrite andb_true_r; reflexivity).
      rewrite flat_map_single_seq.
      replace (Nat.leb 0 (m - ly - 1) && Nat.ltb (m - ly - 1) (0 + m)) with true
        by (symmetry; apply andb_true_iff; split; [apply Nat.leb_le|apply Nat.ltb_lt]; lia).
      simpl. apply perm_skip. apply IH. intros p Hp. apply Hall. right. exact Hp.
    + rewrite (flat_map_ext_in _ (fun _ => @nil (nat * CommandData)))
        by (intros; rewrite andb_false_r; reflexivity).
      assert (E : forall l : list nat, flat_map (fun _ => @nil (nat * CommandData)) l = [])
        by (induction l; simpl; auto).
      rewrite E. simpl. apply IH. intros p Hp. apply Hall. right. exact Hp.
Qed.

Lemma fold_max_layer_ge : forall (xs : list (nat * CommandData)) m,
  (m <= fold_left (fun m (p : nat * CommandData) => Nat.max m (S (fst p))) xs m)%nat
  /\ (forall p, In p xs -> (S (fst p) <= fold_left (fun m (p : nat * CommandData) => Nat.max m (S (fst p))) xs m)%nat).
Proof.
  induction xs as [|q xs IH]; intros m; simpl; [split; [lia|tauto]|].
  destruct (IH (Nat.max m (S (fst q)))) as [H1 H2]. split; [lia|].
  intros p [<-|Hp]; [lia|auto].
Qed.

Lemma max_layer_bound : forall runs order m ri p,
  In ri order -> In p (run (run_at runs ri)) ->
  (S (fst p) <= fold_left (fun m ri => fold_left (fun m (p : nat * CommandData) => Nat.max m (S (fst p)))
                                              (run (run_at runs ri)) m) order m)%nat.
Proof.
  intros runs order. induction order as [|r order IH]; intros m ri p Hri Hp; [destruct Hri|].
  simpl. destruct Hri as [<-|Hri].
  - assert (Mono : forall o m0, (m0 <= fold_left (fun m ri => fold_left (fun m (p : nat * CommandData) =>
               Nat.max m (S (fst p))) (run (run_at runs ri)) m) o m0)%nat).
    { induction o as [|r' o IHo]; intros m0; simpl; [lia|].
      etransitivity; [|apply IHo]. apply fold_max_layer_ge. }
    etransitivity; [|apply Mono]. apply fold_max_layer_ge. exact Hp.
  - apply (IH _ ri p); assumption.
Qed.

Lemma emit_line_perm : forall runs runs' runstart spos,
  Permutation (emit_line runs' runstart spos (max_layer runs' (runorder runs runstart spos)))
    (flat_map (fun i => let r := run_at runs' i in
                         if negb (shy r) || Nat.eqb i (spos - 1)
                         then filter (fun p => negb (space r) || is_rect (snd p)) (run r)
                         else [])
               (seq runstart (spos - runstart))).
Proof.
  intros runs runs' runstart spos. unfold emit_line, emit_layer.
  set (ml := max_layer runs' (runorder runs runstart spos)).
  rewrite (flat_map_swap_perm (fun layer i => let r := run_at runs' i in
             if negb (shy r) || Nat.eqb i (spos - 1) then emit_run r (ml - layer - 1) else [])).
  assert (Pt : forall is, (forall i, In i is -> In i (seq runstart (spos - runstart))) ->
    Permutation
      (flat_map (fun i => flat_map (fun layer => let r := run_at runs' i in
             if negb (shy r) || Nat.eqb i (spos - 1) then emit_run r (ml - layer - 1) else []) (seq 0 ml)) is)
      (flat_map (fun i => let r := run_at runs' i in
             if negb (shy r) || Nat.eqb i (spos - 1)
             then filter (fun p => negb (space r) || is_rect (snd p)) (run r) else []) is)).
  { induction is as [|i is IH]; intros Hin; simpl; [reflexivity|].
    apply Permutation_app; [|apply IH; intros j Hj; apply Hin; right; exact Hj].
    destruct (negb (shy (run_at runs' i)) || Nat.eqb i (spos - 1)).
    - unfold emit_run.
      apply (layers_perm (fun c => negb (space (run_at runs' i)) || is_rect c)).
      intros p Hp. unfold ml, max_layer.
      pose proof (max_layer_bound runs' (runorder runs runstart spos) 0 i p) as B.
      enough (In i (runorder runs runstart spos)) by (specialize (B H Hp); lia).
      apply (Permutation_in _ (Permutation_sym (runorder_perm runs runstart spos))).
      apply Hin. left. reflexivity.
    - clear IH Hin. induction (seq 0 ml) as [|a l0 IHl0]; simpl; [reflexivity|exact IHl0]. }
  apply Pt. auto.
Qed.

(** X17: [addLine] appends to the layout exactly the visible commands of the
    line's runs [runstart .. spos), each once: all commands of a shown
    non-space run and the rectangles (underlines) of a shown space run,
    a run being shown unless it is a soft hyphen other than the line's
    last run.  The commands are those of the runs after placement, which
    [addLine] also returns; only their order (by layer, then visually)
    is left open. *)
Theorem addLine_emits_visible_commands : forall runstart spos runs l ypos w left right flags ns prop,
  let res := addLine runstart spos runs l ypos w left right flags ns prop in
  exists added, commands (snd res) = commands l ++ added
  /\ Permutation added
       (map snd (flat_map (fun i => let r := run_at (fst res) i in
                                    if negb (shy r) || Nat.eqb i (spos - 1)
                                    then filter (fun p => negb (space r) || is_rect (snd p)) (run r)
                                    else [])
                          (seq runstart (spos - runstart)))).
Proof.
  intros runstart spos runs l ypos w left right flags ns prop. cbv zeta. unfold addLine.
  destruct (align_line prop flags left right w ns) as [xpos sa].
  pose proof (place_steps_commands spos ypos flags sa (runorder runs runstart spos) (runs, l, xpos, 0)) as HC.
  destruct (fold_left (place_step spos ypos flags sa) (runorder runs runstart spos) (runs, l, xpos, 0))
    as [[[runs' l'] x] n]. simpl in HC |- *.
  eexists. split; [rewrite HC; reflexivity|].
  apply Permutation_map. apply emit_line_perm.
Qed.

(** ** [addLine]: layer order of the emitted commands *)

(** C8: [addLine] appends a line's commands in descending layer order
    (highest layer first, layer 0 last), so a command of a layer above 0
    comes before every layer-0 command of the line; the appended
    (layer, command) pairs are the visible commands of the line's placed
    runs, each with the layer it has in its run.  And the commands
    [createRun] makes for a glyph are its shadows, each on a layer of at
    least 1, then the glyph on layer 0, then the underline, whose
    shadows again lie on layers of at least 1 before its own rectangle on
    layer 0. *)
Theorem addLine_descending_layers :
  (forall runstart spos runs l ypos curWidth left right lineflags numSpace prop,
     let res := addLine runstart spos runs l ypos curWidth left right lineflags numSpace prop in
     exists out,
       commands (snd res) = commands l ++ map snd out
       /\ Permutation out
            (flat_map (fun i => let r := run_at (fst res) i in
                                if negb (shy r) || Nat.eqb i (spos - 1)
                                then filter (fun p => negb (space r) || is_rect (snd p)) (run r)
                                else [])
                      (seq runstart (spos - runstart)))
       /\ StronglySorted layer_desc out
       /\ (forall p q d, (p < length out)%nat -> (q < length out)%nat ->
             (0 < fst (nth p out d))%nat -> fst (nth q out d) = 0%nat -> (p < q)%nat))
  /\ (forall v prop runstart font rdy a g gx,
       exists sh ul,
         glyph_cmds v prop runstart font rdy a g gx
         = sh ++ (0%nat, glyph_cmd font (g_codepoint g) gx
                           (rdy - y_offset g - a_baseline_shift (att v runstart)) (a_c a) 0) :: ul
         /\ Forall (fun x => (1 <= fst x)%nat) sh
         /\ (ul = [] \/ exists ush b, ul = ush ++ [(0%nat, b)]
                                      /\ Forall (fun x => (1 <= fst x)%nat) ush)).
Proof.
  split.
  - intros runstart spos runs l ypos curWidth left right lineflags numSpace prop. cbv zeta.
    unfold addLine.
    destruct (align_line prop lineflags left right curWidth numSpace) as [xpos sa].
    pose proof (place_steps_commands spos ypos lineflags sa (runorder runs runstart spos)
                  (runs, l, xpos, 0)) as Hc.
    destruct (fold_left (place_step spos ypos lineflags sa) (runorder runs runstart spos)
                (runs, l, xpos, 0)) as [[[runs' l'] x] n].
    simpl in Hc |- *.
    exists (emit_line runs' runstart spos (max_layer runs' (runorder runs runstart spos))).
    assert (Hs : StronglySorted layer_desc
                   (emit_line runs' runstart spos (max_layer runs' (runorder runs runstart spos))))
      by apply emit_blocks_sorted.
    split; [rewrite Hc; reflexivity|].
    split; [apply emit_line_perm|]. split; [exact Hs|].
    intros p q d Hp Hq H0 H1.
    destruct (Nat.lt_trichotomy p q) as [Hlt|[Heq|Hgt]]; [exact Hlt| subst; lia |].
    pose proof (SS_nth _ _ d q p Hs (conj Hgt Hp)) as H. unfold layer_desc in H. lia.
  - intros v prop runstart font rdy a g gx. unfold glyph_cmds.
    eexists; eexists. split; [reflexivity|]. split.
    + apply Forall_forall. intros x Hx. apply in_map_iff in Hx. destruct Hx as (j & <- & Hj).
      apply in_seq in Hj. simpl. lia.
    + apply addUnderline_layers.
Qed.
